(** * Analytical ice-temperature solutions: a shallow embedding

    This development embeds [icetemperature/lib/analytical_solutions.py]
    (Robin 1955, Rezvanbehbahani et al. 2019, Meyer & Minchew 2018,
    Perol & Rice 2015) and states its specification over the embedding.

    The four solvers are written once, over an abstract scalar type [F]
    with two interfaces:
      - [Arith F], the arithmetic numpy performs on a float64 scalar
        (the four operations, negation, [abs], [np.sqrt], comparisons,
        literals, [np.pi]);
      - [Elementary F], [ErfQuad F] and [GammaW F], the transcendental
        services the module imports ([np.exp], [np.log], [**], and
        scipy's [erf], [quad], [gamma], [gammaincc], [lambertw]).
    They are then read at two instances: IEEE binary64 ([PrimFloat]),
    where not-a-number values and signed zeros behave as in the
    interpreter, and the real numbers, where a property the specification
    gives "to numerical tolerance" becomes an equality.

    Diagnostic printing ([verbose]), and the melt rate [M] that Robin's
    solver computes only to print it, are not part of the model: they
    never change a returned value.  Exceptions are: an unbound name
    ([NameError]) and an index outside a sequence ([IndexError]);
    arithmetic follows numpy's float64 scalars, where a division by zero
    yields an infinity or a not-a-number value and raises nothing.  Where
    a scalar field is a plain Python float instead, a zero divisor or a
    zero base under a negative power raises [ZeroDivisionError], and an
    overflowing power [OverflowError]: the model has no value for these,
    and a theorem that asserts a returned profile keeps them away by
    hypothesis. *)

From Stdlib Require Import String.
From Stdlib Require Import List Bool ZArith QArith Lia.
From Stdlib Require Import Floats.
From Stdlib Require Import Reals Lra Qreals.
From Stdlib Require Import FunctionalExtensionality ClassicalEpsilon.
Import ListNotations.

Set Implicit Arguments.

(** ** Exceptions *)

Inductive exn : Set :=
| NameError    (* a free name that is bound nowhere *)
| IndexError.  (* an index outside a sequence *)

Inductive result (A : Type) : Type :=
| Ok (a : A)
| Raise (e : exn).

Arguments Ok {A} a.
Arguments Raise {A} e.

Definition bind {A B : Type} (c : result A) (k : A -> result B) : result B :=
  match c with
  | Ok a => k a
  | Raise e => Raise e
  end.

Declare Scope py_scope.
Delimit Scope py_scope with py.
Notation "x <- c ;; k" := (bind c (fun x => k))
  (at level 61, c at next level, right associativity) : py_scope.
Open Scope py_scope.

(** ** Sequences: Python indexing, with negative indices from the end *)

Definition getitem {A : Type} (l : list A) (i : Z) : result A :=
  let len := Z.of_nat (length l) in
  let j := if (i <? 0)%Z then (len + i)%Z else i in
  if ((j <? 0) || (len <=? j))%Z%bool then Raise IndexError
  else match nth_error l (Z.to_nat j) with
       | Some x => Ok x
       | None => Raise IndexError
       end.

(** [T[mask] = v] for a boolean mask of the length of [T]. *)
Fixpoint mask_assign {A : Type} (T : list A) (mask : list bool) (v : A) : list A :=
  match T, mask with
  | t :: T', b :: mask' => (if b then v else t) :: mask_assign T' mask' v
  | _, _ => T
  end.

(** ** The numerical interfaces *)

Class Arith (F : Type) : Type := {
  fadd  : F -> F -> F;
  fsub  : F -> F -> F;
  fmul  : F -> F -> F;
  fdiv  : F -> F -> F;
  fopp  : F -> F;
  fabs  : F -> F;
  np_sqrt : F -> F;
  fltb  : F -> F -> bool;    (* [<] *)
  feqb  : F -> F -> bool;    (* [==] *)
  lit   : Q -> F;            (* a decimal literal of the source *)
  np_pi : F
}.

(** The transcendental services, grouped by what the solvers import. *)
Class Elementary (F : Type) : Type := {
  np_exp : F -> F;
  np_log : F -> F;
  fpow : F -> F -> F                     (* [x ** y] *)
}.

Class ErfQuad (F : Type) : Type := {
  erf : F -> F;                          (* scipy.special.erf *)
  quad : (F -> F) -> F -> F -> F         (* scipy.integrate.quad(f,a,b)[0] *)
}.

Class GammaW (F : Type) : Type := {
  sp_gamma : F -> F;                     (* scipy.special.gamma *)
  gammaincc : F -> F -> F;               (* scipy.special.gammaincc *)
  lambertw_re : F -> F                   (* np.real(lambertw(x)) *)
}.

Declare Scope num_scope.
Delimit Scope num_scope with num.
Notation "x + y" := (fadd x y) : num_scope.
Notation "x - y" := (fsub x y) : num_scope.
Notation "x * y" := (fmul x y) : num_scope.
Notation "x / y" := (fdiv x y) : num_scope.
Notation "- x" := (fopp x) : num_scope.
Notation "x ** y" := (fpow x y) (at level 30, right associativity) : num_scope.
Notation "x <? y" := (fltb x y) : num_scope.
Notation "x >? y" := (fltb y x) (only parsing) : num_scope.
Notation "x =? y" := (feqb x y) : num_scope.
Notation "x !=? y" := (negb (feqb x y)) (at level 70) : num_scope.
Notation "# q" := (lit q%Q) (at level 5, format "# q") : num_scope.

(** ** The data model *)

(** The [Model] container: the fields the solvers read. *)
Record Model (F : Type) : Type := {
  z      : list F;   (* depth grid *)
  Ts     : F;        (* surface temperature *)
  H      : F;        (* ice thickness *)
  adot   : F;        (* accumulation rate *)
  qgeo   : F;        (* geothermal flux *)
  pmp    : list F;   (* pressure-melting-point profile *)
  eps_xy : F         (* shear strain rate *)
}.

(** The [constants] container: the fields the solvers read. *)
Record Constants (F : Type) : Type := {
  k   : F;   (* thermal conductivity *)
  rho : F;   (* density *)
  Cp  : F;   (* specific heat capacity *)
  L   : F;   (* latent heat *)
  g   : F;   (* gravity *)
  n   : F;   (* flow-law exponent *)
  spy : F    (* seconds per year *)
}.

(** The [T_bulk] argument: the string ['average'] or a temperature. *)
Inductive Tbulk (F : Type) : Type :=
| average
| given (t : F).
Arguments average {F}.
Arguments given {F} t.

Section Solvers.

Context {F : Type} `{Arith F} `{Elementary F} `{ErfQuad F} `{GammaW F}.

Local Open Scope num_scope.

(** What [from ice_properties import *] and the module's globals bring
    into scope.  [ice_properties] is outside this repository's sources:
    its functions are parameters.  [global_H] is the binding of the bare
    name [H] at module level, [None] when there is none. *)
Variable conductivity : F -> F -> F.
Variable heat_capacity : F -> F.
Variable global_H : option F.

Definition lookup_H : result F :=
  match global_H with
  | Some h => Ok h
  | None => Raise NameError
  end.

(** [np.mean([a, b])] *)
Definition np_mean2 (a b : F) : F := (a + b) / #2.

(** *** Robin (1955) *)

Definition Robin_T (m : Model F) (const : Constants F) (melt : bool)
  : result (list F) :=
  (* Thermal diffusivity *)
  let alpha := k const / (rho const * Cp const) in
  let q2 := adot m / (#2 * alpha * H m) in
  let Tb_grad := - qgeo m / k const in
  let f := fun z => np_exp (- (z ** #2) * q2) in
  let TTb := map (fmul Tb_grad) (map (fun zi => quad f #0 zi) (z m)) in
  TTb_last <- getitem TTb (-1) ;;
  let dTs := Ts m - TTb_last in
  let T := map (fun t => t + dTs) TTb in
  (* recalculate if basal temperature is above melting *)
  melting <- (if melt
              then T0 <- getitem T 0 ;; pmp0 <- getitem (pmp m) 0 ;;
                   Ok (T0 >? pmp0)
              else Ok false) ;;
  if melting then
    pmp0 <- getitem (pmp m) 0 ;;
    let Tb_grad := #(-2) * np_sqrt q2 * (pmp0 - Ts m) / np_sqrt np_pi
                   * (np_sqrt (erf (adot m * H m / (#2 * alpha))) ** #(-1)) in
    let TTb := map (fmul Tb_grad) (map (fun zi => quad f #0 zi) (z m)) in
    TTb_last <- getitem TTb (-1) ;;
    let dTs := Ts m - TTb_last in
    let T := map (fun t => t + dTs) TTb in
    Ok T
  else Ok T.

(** *** Rezvanbehbahani et al. (2019) *)

Definition Rezvan_T (m : Model F) (const : Constants F)
    (rate_factor : list F -> Constants F -> list F)
    (T_ratefactor dHdx tau_dx gamma : F) (gamma_plus : bool)
  : result (list F) :=
  (* Thermal diffusivity *)
  let alpha := k const / (rho const * Cp const) in
  let gamma :=
    if gamma_plus then
      (* Solve for gamma using the logarithmic regression with the Pe number *)
      let Pe := adot m * H m / alpha in
      #1.39 + #0.044 * np_log Pe
    else gamma in
  tau_dx <- (if (dHdx !=? #0) && (tau_dx =? #0)
             then (* driving stress Nye (1952) *)
                  H <- lookup_H ;;
                  Ok (rho const * g const * H * fabs dHdx)
             else Ok tau_dx) ;;
  (* the local [qgeo]: bound only when there is strain heating *)
  qgeo_local <- (if tau_dx !=? #0
                 then (* Energy from strain heating is added to the geothermal flux *)
                      A <- getitem (rate_factor [T_ratefactor] const) 0 ;;
                      let qgeo_s := (#2 / #5) * A * H m * tau_dx ** #4 in
                      Ok (Some (qgeo m + qgeo_s))
                 else Ok None) ;;
  let lamb := adot m / (alpha * H m ** gamma) in
  let phi := - lamb / (gamma + #1) in
  let Γ_1 := map (fun zi => gammaincc (#1 / (#1 + gamma)) (- phi * zi ** (gamma + #1))
                            * sp_gamma (#1 / (#1 + gamma))) (z m) in
  let Γ_2 := gammaincc (#1 / (#1 + gamma)) (- phi * H m ** (gamma + #1))
             * sp_gamma (#1 / (#1 + gamma)) in
  let term2 := map (fun g1 => g1 - Γ_2) Γ_1 in
  let T := map (fun t2 => Ts m + qgeo m * (- phi) ** (#(-1) / (gamma + #1))
                                 / (k const * (gamma + #1)) * t2) term2 in
  Ok T.

(** *** Meyer and Minchew (2018) *)

Definition resolve_T_bulk (m : Model F) (T_bulk : Tbulk F) : result F :=
  match T_bulk with
  | average => pmp0 <- getitem (pmp m) 0 ;; Ok (np_mean2 (Ts m) pmp0)
  | given t => Ok t
  end.

Definition Meyer_T (m : Model F) (const : Constants F)
    (rate_factor : list F -> Constants F -> list F)
    (T_bulk : Tbulk F) (Tb lam : F)
  : result (list F) :=
  (* an "average" temperature to use for temp-dependent constants *)
  T_bulk <- resolve_T_bulk m T_bulk ;;
  let k := conductivity T_bulk (rho const) in
  let Cp := heat_capacity T_bulk in
  A <- getitem (rate_factor [T_bulk] const) 0 ;;
  (* Brinkman Number *)
  let S := #2 * A ** (#(-1) / n const) * eps_xy m ** ((n const + #1) / n const) in
  let dT := Tb - Ts m in
  let Br := (S * H m ** #2) / (k * dT) in
  (* Peclet Number *)
  let Pe := (rho const * Cp * adot m * H m) / k in
  let LAM := lam * H m ** #2 / (k * dT) in
  if fabs Pe <? #1e-3 then
    (* Critical Shear Strain *)
    let eps_bar := (k * dT / (A ** (#(-1) / n const) * H m ** #2))
                   ** (n const / (n const + #1)) in
    (* Find the temperate thickness *)
    let hbar := if eps_xy m >? eps_bar then #1 - np_sqrt (#2 / Br) else #0 in
    (* Solve for the temperature profile *)
    let T := map (fun zi => Ts m + dT * (Br / #2)
                    * (#1 - (zi / H m) ** #2 - #2 * hbar * (#1 - zi / H m))) (z m) in
    H <- lookup_H ;;
    Ok (mask_assign T (map (fun zi => zi / H <? hbar) (z m)) #0)
  else
    (* Critical Shear Strain *)
    let eps_1 := ((#0.5 * Pe ** #2) / (Pe - #1 + np_exp (- Pe)) + #0.5 * LAM)
                 ** (n const / (n const + #1)) in
    let eps_bar := eps_1 * ((k * dT / (A ** (#(-1) / n const) * H m ** #2))
                            ** (n const / (n const + #1))) in
    (* Find the temperate thickness *)
    let hbar :=
      if eps_xy m >? eps_bar then
        let h_1 := #1 - (Pe / (Br - LAM)) in
        let h_2 := - (#1 / Pe)
                   * (#1 + lambertw_re (- np_exp (- (Pe ** #2 / (Br - LAM)) - #1))) in
        h_1 + h_2
      else #0 in
    let T := map (fun zi => Ts m + dT * ((Br - LAM) / Pe)
                    * (#1 - zi / H m + (#1 / Pe) * np_exp (Pe * (hbar - #1))
                       - (#1 / Pe) * np_exp (Pe * (hbar - zi / H m)))) (z m) in
    Ok (mask_assign T (map (fun zi => zi / H m <? hbar) (z m)) #0).

(** *** Perol and Rice (2015) *)

(** The body of the loop [for i in range(len(m.z))], at depth [zi]. *)
Definition Perol_point (m : Model F) (k Pe S zi : F) : result F :=
  (* Two functions to be integrated *)
  let f1 := fun lam => (#1 - np_exp (- lam * Pe * zi ** #2 / (#2 * H m ** #2)))
                       / (#2 * lam * np_sqrt (#1 - lam)) in
  let f2 := fun lam => (#1 - np_exp (- lam * Pe / #2))
                       / (#2 * lam * np_sqrt (#1 - lam)) in
  (* Calculate temperature profile *)
  pmp0 <- getitem (pmp m) 0 ;;
  Ok (pmp0 + (Ts m - pmp0) * erf (np_sqrt (Pe / #2) * (zi / H m)) / erf (np_sqrt (Pe / #2))
      - S * H m ** #2 / (k * Pe)
        * (quad f1 #0 #1
           - (erf (np_sqrt (Pe / #2) * (zi / H m)) / erf (np_sqrt (Pe / #2)))
             * quad f2 #0 #1)).

(** The loop over the depth grid: it stops at the first exception. *)
Fixpoint for_each (body : F -> result F) (zs : list F) : result (list F) :=
  match zs with
  | [] => Ok []
  | zi :: zs' => t <- body zi ;; T <- for_each body zs' ;; Ok (t :: T)
  end.

Definition Perol_Pe (m : Model F) (const : Constants F) (T_bulk : F) : F :=
  adot m * H m / (conductivity T_bulk (rho const) / (rho const * heat_capacity T_bulk)).

Definition Perol_T (m : Model F) (const : Constants F)
    (rate_factor : list F -> Constants F -> list F)
    (T_bulk : Tbulk F)
  : result (list F) :=
  (* an "average" temperature to use for temp-dependent constants *)
  T_bulk <- resolve_T_bulk m T_bulk ;;
  let k := conductivity T_bulk (rho const) in
  let Cp := heat_capacity T_bulk in
  A <- getitem (rate_factor [T_bulk] const) 0 ;;
  (* Peclet Number *)
  let Pe := adot m * H m / (k / (rho const * Cp)) in
  (* Strain Heating *)
  let S := #2 * A ** (#(-1) / n const)
           * (eps_xy m / #2) ** ((n const + #1) / n const) in
  (* loop through all z's *)
  for_each (Perol_point m k Pe S) (z m).

End Solvers.

Arguments Robin_T {F _ _ _} m const melt.
Arguments Rezvan_T {F _ _ _} global_H m const rate_factor
  T_ratefactor dHdx tau_dx gamma gamma_plus.
Arguments Meyer_T {F _ _ _} conductivity heat_capacity global_H m const
  rate_factor T_bulk Tb lam.
Arguments Perol_T {F _ _ _} conductivity heat_capacity m const rate_factor T_bulk.

(** ** Instance 1: IEEE binary64 *)

Module Binary64.

Local Open Scope float_scope.

Definition float_of_Z (n : Z) : float :=
  match n with
  | Z0 => 0
  | Zpos _ => of_uint63 (Uint63.of_Z n)
  | Zneg p => - of_uint63 (Uint63.of_Z (Zpos p))
  end.

(** A decimal literal [num/den]: both are exact in binary64 for the
    literals of the source, and the division rounds to nearest, which is
    how the interpreter reads the literal. *)
Definition float_lit (q : Q) : float :=
  float_of_Z (Qnum q) / float_of_Z (Zpos (Qden q)).

#[export] Instance float_arith : Arith float := {|
  fadd := PrimFloat.add;
  fsub := PrimFloat.sub;
  fmul := PrimFloat.mul;
  fdiv := PrimFloat.div;
  fopp := PrimFloat.opp;
  fabs := PrimFloat.abs;
  np_sqrt := PrimFloat.sqrt;
  fltb := PrimFloat.ltb;
  feqb := PrimFloat.eqb;
  lit := float_lit;
  np_pi := 0x1.921fb54442d18p+1
|}.

(** *** Reference services

    A small binary64 mathematical library standing in for numpy and
    scipy, so that the solvers can be run on concrete inputs.  The
    general theorems quantify over the services and do not depend on
    it. *)

Definition trunc_Z (x : float) : Z :=
  match Prim2SF x with
  | S754_finite s m e =>
      let v := if (0 <=? e)%Z then (Zpos m * 2 ^ e)%Z else (Zpos m / 2 ^ (- e))%Z in
      if s then (- v)%Z else v
  | _ => 0%Z
  end.

Definition ln2 : float := 0x1.62e42fefa39efp-1.
Definition ln2_hi : float := 0x1.62e42feep-1.
Definition ln2_lo : float := 0x1.a39ef35793c76p-33.

(** [sum_{i <= j} r^i / i!], by Horner's rule *)
Fixpoint exp_horner (r : float) (j : nat) (acc : float) : float :=
  match j with
  | O => acc
  | S j' => exp_horner r j' (1 + r / float_of_Z (Z.of_nat j) * acc)
  end.

Definition exp_ref (x : float) : float :=
  if is_nan x then nan
  else if 710 <? x then infinity
  else if x <? -746 then 0
  else
    let q := trunc_Z (x / ln2 + (if x <? 0 then -0.5 else 0.5)) in
    let qf := float_of_Z q in
    let r := (x - qf * ln2_hi) - qf * ln2_lo in
    Z.ldexp (exp_horner r 18 1) q.

Fixpoint atanh_series (s2 : float) (j : nat) (acc : float) : float :=
  match j with
  | O => acc
  | S j' => atanh_series s2 j' (1 / float_of_Z (2 * Z.of_nat j' + 1) + s2 * acc)
  end.

Definition log_ref (x : float) : float :=
  if is_nan x then nan
  else if x <? 0 then nan
  else if x =? 0 then neg_infinity
  else if x =? infinity then infinity
  else
    let (mant, e) := Z.frexp x in
    let (mant, e) := if mant <? 0x1.6a09e667f3bcdp-1
                     then (2 * mant, (e - 1)%Z) else (mant, e) in
    let s := (mant - 1) / (mant + 1) in
    float_of_Z e * ln2 + 2 * s * atanh_series (s * s) 14 0.

Fixpoint pow_pos (x : float) (p : positive) : float :=
  match p with
  | xH => x
  | xO p' => let h := pow_pos x p' in h * h
  | xI p' => let h := pow_pos x p' in x * (h * h)
  end.

Definition is_small_int (y : float) : bool :=
  (PrimFloat.abs y <=? 1024) && (float_of_Z (trunc_Z y) =? y).

Definition pow_ref (x y : float) : float :=
  if y =? 0 then 1
  else if is_nan x || is_nan y then nan
  else if is_small_int y then
    match trunc_Z y with
    | Zpos p => pow_pos x p
    | Zneg p => 1 / pow_pos x p
    | Z0 => 1
    end
  else if 0 <? x then exp_ref (y * log_ref x)
  else if x =? 0 then (if 0 <? y then 0 else infinity)
  else nan.

Definition two_over_sqrt_pi : float := 0x1.20dd750429b6dp+0.

(** [erf x = 2/sqrt(pi) * exp(-x^2) * sum_j 2^j x^(2j+1) / (2j+1)!!] *)
Fixpoint erf_terms (x2 : float) (fuel : nat) (j : Z) (t acc : float) : float :=
  match fuel with
  | O => acc
  | S fuel' =>
      let t' := t * (2 * x2) / float_of_Z (2 * j + 3) in
      erf_terms x2 fuel' (j + 1) t' (acc + t')
  end.

Definition erf_ref (x : float) : float :=
  if is_nan x then nan
  else if 6 <? x then 1
  else if x <? -6 then -1
  else two_over_sqrt_pi * exp_ref (- (x * x)) * erf_terms (x * x) 160 0 x x.

(** Composite three-point Gauss-Legendre rule, 48 panels: like QUADPACK's
    rules it evaluates the integrand at interior points only. *)
Definition gl_node : float := 0x1.8c97ef43f7248p-1.

Fixpoint gl_panels (f : float -> float) (a h : float) (i : nat) (acc : float) : float :=
  match i with
  | O => acc
  | S i' =>
      let c := a + (float_of_Z (Z.of_nat i') + 0.5) * h in
      let d := 0.5 * h * gl_node in
      gl_panels f a h i' (acc + (5 * f (c - d) + 8 * f c + 5 * f (c + d)))
  end.

Definition quad_ref (f : float -> float) (a b : float) : float :=
  let h := (b - a) / 48 in
  if h =? 0 then 0 else h / 18 * gl_panels f a h 48 0.

(** Lanczos approximation of the gamma function, [g = 7] *)
Definition lanczos : list float :=
  [0x1.52429b6c30b05p+9; -0x1.3ac8e8ed4171bp+10; 0x1.81a9661d3b4d8p+9;
   -0x1.613ae51a32f5dp+7; 0x1.903c27f8b9c81p+3; -0x1.1bcb2992b2855p-3;
   0x1.4f0514e4e324fp-17; 0x1.435508f3faeefp-23].

Fixpoint lanczos_sum (zz : float) (i : Z) (cs : list float) (acc : float) : float :=
  match cs with
  | [] => acc
  | c :: cs' => lanczos_sum zz (i + 1) cs' (acc + c / (zz + float_of_Z i))
  end.

Definition sqrt_2pi : float := 0x1.40d931ff62705p+1.

Definition gamma_ge_half (x : float) : float :=
  let zz := x - 1 in
  let s := lanczos_sum zz 1 lanczos 0x1.ffffffffff950p-1 in
  let t := zz + 7.5 in
  sqrt_2pi * pow_ref t (zz + 0.5) * exp_ref (- t) * s.

Definition gamma_ref (x : float) : float :=
  if is_nan x then nan
  else if x <=? 0 then nan
  else if x <? 0.5 then gamma_ge_half (x + 1) / x
  else gamma_ge_half x.

(** Regularized upper incomplete gamma function: series below [a+1],
    continued fraction (modified Lentz) above. *)
Fixpoint gser (x : float) (fuel : nat) (ap del sum : float) : float :=
  match fuel with
  | O => sum
  | S fuel' =>
      let ap' := ap + 1 in
      let del' := del * x / ap' in
      gser x fuel' ap' del' (sum + del')
  end.

Definition tiny : float := 0x1p-1000.

Fixpoint gcf (a : float) (fuel : nat) (i : Z) (b c d h : float) : float :=
  match fuel with
  | O => h
  | S fuel' =>
      let an := - float_of_Z i * (float_of_Z i - a) in
      let b' := b + 2 in
      let d0 := an * d + b' in
      let d1 := if PrimFloat.abs d0 <? tiny then tiny else d0 in
      let c0 := b' + an / c in
      let c1 := if PrimFloat.abs c0 <? tiny then tiny else c0 in
      let d' := 1 / d1 in
      gcf a fuel' (i + 1) b' c1 d' (h * (d' * c1))
  end.

Definition gammaincc_ref (a x : float) : float :=
  if is_nan a || is_nan x then nan
  else if (a <=? 0) || (x <? 0) then nan
  else if x =? 0 then 1
  else if x =? infinity then 0
  else
    let pre := exp_ref (- x + a * log_ref x) / gamma_ref a in
    if x <? a + 1
    then 1 - pre * gser x 200 a (1 / a) (1 / a)
    else let b := x + 1 - a in
         pre * gcf a 200 1 b (1 / tiny) (1 / b) (1 / b).

(** Principal branch of Lambert's W on the reals, by Halley's iteration;
    not-a-number left of the branch point. *)
Fixpoint halley (x : float) (fuel : nat) (w : float) : float :=
  match fuel with
  | O => w
  | S fuel' =>
      let ew := exp_ref w in
      let f := w * ew - x in
      halley x fuel' (w - f / (ew * (w + 1) - (w + 2) * f / (2 * w + 2)))
  end.

Definition inv_e : float := 0x1.78b56362cef38p-2.
Definition euler_e : float := 0x1.5bf0a8b145769p+1.

Definition lambertw_ref (x : float) : float :=
  if is_nan x then nan
  else if x <? - inv_e then nan
  else if x =? 0 then x
  else
    let w0 := if x <? 1
              then let p := PrimFloat.sqrt (2 * (euler_e * x + 1)) in -1 + p - p * p / 3
              else log_ref x in
    let w0 := if w0 <=? -1 then -0x1.fffp-1 else w0 in
    halley x 40 w0.

Definition ref_elementary : Elementary float :=
  {| np_exp := exp_ref; np_log := log_ref; fpow := pow_ref |}.
Definition ref_erfquad : ErfQuad float :=
  {| erf := erf_ref; quad := quad_ref |}.
Definition ref_gammaw : GammaW float :=
  {| sp_gamma := gamma_ref; gammaincc := gammaincc_ref; lambertw_re := lambertw_ref |}.

End Binary64.

(** ** Instance 2: the real numbers *)

Module Ideal.

Local Open Scope R_scope.

Definition Rltb (x y : R) : bool := if Rlt_dec x y then true else false.
Definition Reqb (x y : R) : bool := if Req_dec_T x y then true else false.

(** [x ** y]: the real power for a positive base, the integer power when
    the exponent is an integer, and 0 where the interpreter has no real
    value.  Together with the division of [R], which is 0 on a zero
    divisor, this is the interpreter's value on positive bases, on zero
    under a positive exponent, and on non-negative integer exponents;
    elsewhere the interpreter has an infinity, a not-a-number value or an
    exception, and the theorems over [R] keep away by hypothesis from the
    inputs whose result would rest on it. *)
Definition Rpow (x y : R) : R :=
  if Rlt_dec 0 x then Rpower x y
  else if Req_dec_T y (IZR (Int_part y)) then powerRZ x (Int_part y)
  else 0.

#[export] Instance real_arith : Arith R := {|
  fadd := Rplus;
  fsub := Rminus;
  fmul := Rmult;
  fdiv := Rdiv;
  fopp := Ropp;
  fabs := Rabs;
  np_sqrt := sqrt;
  fltb := Rltb;
  feqb := Reqb;
  lit := Q2R;
  np_pi := PI
|}.

#[export] Instance real_elementary : Elementary R := {|
  np_exp := exp;
  np_log := ln;
  fpow := Rpow
|}.

(** The integral of [f] over [[a,b]] where [f] is Riemann integrable,
    and 0 elsewhere. *)
Definition RInt (f : R -> R) (a b : R) : R :=
  match excluded_middle_informative (inhabited (Riemann_integrable f a b)) with
  | left i => RiemannInt (epsilon i (fun _ => True))
  | right _ => 0
  end.

Definition gauss (t : R) : R := exp (- (t * t)).

(** The error function, [2/sqrt(pi)] times the integral of [exp(-t^2)]. *)
Definition erf_R (x : R) : R := 2 / sqrt PI * RInt gauss 0 x.

Definition riemann_erfquad : ErfQuad R := {| erf := erf_R; quad := RInt |}.

End Ideal.

(** * Properties of the solvers *)

(** ** Sequences and the exception monad *)

Lemma bind_Ok {A B : Type} (c : result A) (k : A -> result B) (b : B) :
  bind c k = Ok b -> exists a, c = Ok a /\ k a = Ok b.
Proof.
  destruct c as [a|e]; simpl; intros E.
  - exists a. split; [reflexivity | exact E].
  - discriminate E.
Qed.

Lemma getitem_0_cons {A : Type} (x : A) (l : list A) : getitem (x :: l) 0 = Ok x.
Proof.
  unfold getitem. cbn [Z.ltb Z.compare length].
  replace ((Z.of_nat (S (length l)) <=? 0)%Z) with false by (symmetry; apply Z.leb_gt; lia).
  reflexivity.
Qed.

Lemma getitem_0_Ok {A : Type} (l : list A) (x : A) :
  getitem l 0 = Ok x -> exists l', l = x :: l'.
Proof.
  destruct l as [|y l']; [discriminate|].
  rewrite getitem_0_cons. intros E. injection E as ->. now exists l'.
Qed.

Lemma getitem_map {A B : Type} (f : A -> B) (l : list A) (i : Z) :
  getitem (map f l) i = x <- getitem l i ;; Ok (f x).
Proof.
  unfold getitem. rewrite length_map.
  destruct (_ || _)%bool; [reflexivity|].
  rewrite nth_error_map. now destruct (nth_error l _).
Qed.

Lemma nth_error_length_last {A : Type} (l : list A) (x d : A) :
  nth_error (x :: l) (length l) = Some (last (x :: l) d).
Proof.
  revert x. induction l as [|y l IH]; intros x; [reflexivity|].
  cbn [length nth_error]. rewrite (IH y). reflexivity.
Qed.

Lemma getitem_last {A : Type} (l : list A) (d : A) :
  l <> [] -> getitem l (-1) = Ok (last l d).
Proof.
  intros Hl. unfold getitem. cbn [Z.ltb Z.compare].
  destruct l as [|x l]; [contradiction|]. clear Hl.
  assert (E : (Z.of_nat (length (x :: l)) + -1)%Z = Z.of_nat (length l))
    by (cbn [length]; lia).
  rewrite E.
  replace ((Z.of_nat (length l) <? 0)%Z) with false by (symmetry; apply Z.ltb_ge; lia).
  replace ((Z.of_nat (length (x :: l)) <=? Z.of_nat (length l))%Z) with false
    by (symmetry; apply Z.leb_gt; cbn [length]; lia).
  rewrite Nat2Z.id. cbn [orb].
  now rewrite (nth_error_length_last l x d).
Qed.

Lemma getitem_last_nil {A : Type} : getitem (@nil A) (-1) = Raise IndexError.
Proof. reflexivity. Qed.

Lemma length_mask_assign {A : Type} (T : list A) (mask : list bool) (v : A) :
  length (mask_assign T mask v) = length T.
Proof.
  revert mask. induction T as [|t T IH]; intros [|b mask]; simpl; auto.
Qed.

(** Masked assignment over two maps of one grid is a map over the grid. *)
Lemma mask_assign_map {A B : Type} (f : A -> B) (p : A -> bool) (v : B) (l : list A) :
  mask_assign (map f l) (map p l) v = map (fun a => if p a then v else f a) l.
Proof.
  induction l as [|a l IH]; simpl; [reflexivity | now rewrite IH].
Qed.

(** ** Facts that hold for every arithmetic and every service *)

Section SolverFacts.

Context {F : Type} `{Arith F} `{Elementary F} `{ErfQuad F} `{GammaW F}.

Variable conductivity : F -> F -> F.
Variable heat_capacity : F -> F.

Local Open Scope num_scope.

(** *** Robin: one pass, for a given basal gradient *)

Definition Robin_q2 (m : Model F) (const : Constants F) : F :=
  adot m / (#2 * (k const / (rho const * Cp const)) * H m).

Definition Robin_integrand (m : Model F) (const : Constants F) : F -> F :=
  fun z => np_exp (- (z ** #2) * Robin_q2 m const).

(** Lines 52-54 (and again 58-60): integrate, scale, shift to the surface. *)
Definition Robin_pass (m : Model F) (const : Constants F) (Tb_grad : F)
  : result (list F) :=
  let TTb := map (fmul Tb_grad)
                 (map (fun zi => quad (Robin_integrand m const) #0 zi) (z m)) in
  TTb_last <- getitem TTb (-1) ;;
  Ok (map (fun t => t + (Ts m - TTb_last)) TTb).

(** The gradient of line 57. *)
Definition Robin_melt_gradient (m : Model F) (const : Constants F) (pmp0 : F) : F :=
  #(-2) * np_sqrt (Robin_q2 m const) * (pmp0 - Ts m) / np_sqrt np_pi
  * (np_sqrt (erf (adot m * H m / (#2 * (k const / (rho const * Cp const))))) ** #(-1)).

Lemma Robin_T_no_melt (m : Model F) (const : Constants F) :
  Robin_T m const false = Robin_pass m const (- qgeo m / k const).
Proof.
  unfold Robin_T, Robin_pass, Robin_integrand, Robin_q2.
  destruct (getitem _ (-1)); reflexivity.
Qed.

Lemma Robin_T_melt (m : Model F) (const : Constants F) (T : list F) (t0 p0 : F) :
  Robin_pass m const (- qgeo m / k const) = Ok T ->
  getitem T 0 = Ok t0 ->
  getitem (pmp m) 0 = Ok p0 ->
  Robin_T m const true =
    if t0 >? p0 then Robin_pass m const (Robin_melt_gradient m const p0) else Ok T.
Proof.
  unfold Robin_T, Robin_pass, Robin_melt_gradient, Robin_integrand, Robin_q2.
  intros E E0 Ep.
  destruct (getitem _ (-1)) as [last1|e]; [|discriminate E].
  cbn [bind] in E |- *. injection E as E. rewrite E, E0. cbn [bind].
  rewrite Ep. cbn [bind].
  destruct (t0 >? p0); [|reflexivity].
  destruct (getitem _ (-1)); reflexivity.
Qed.

Lemma Robin_pass_map (m : Model F) (const : Constants F) (G : F) (T : list F) :
  Robin_pass m const G = Ok T ->
  exists c, T = map (fun zi => G * quad (Robin_integrand m const) #0 zi + c) (z m).
Proof.
  unfold Robin_pass. intros E.
  destruct (getitem _ (-1)) as [l|e]; [|discriminate E].
  cbn [bind] in E. injection E as <-.
  exists (Ts m - l). now rewrite !map_map.
Qed.

(** With the surface-most depth [zl] at hand, a pass is one map over
    the grid. *)
Lemma Robin_pass_last (m : Model F) (const : Constants F) (G zl : F) :
  getitem (z m) (-1) = Ok zl ->
  Robin_pass m const G
  = Ok (map (fun zi => G * quad (Robin_integrand m const) #0 zi
                       + (Ts m - G * quad (Robin_integrand m const) #0 zl)) (z m)).
Proof.
  intros El. unfold Robin_pass. rewrite !getitem_map, El. cbn [bind].
  now rewrite !map_map.
Qed.

(** C9. When the first pass does not put the basal temperature above the
    basal pressure-melting point, [Robin_T] with [melt=True] returns the
    same array as with [melt=False]. *)
Theorem Robin_T_melt_flag_without_exceedance
    (m : Model F) (const : Constants F) (T : list F) (t0 p0 : F) :
  Robin_T m const false = Ok T ->
  getitem T 0 = Ok t0 ->
  getitem (pmp m) 0 = Ok p0 ->
  (t0 >? p0) = false ->
  Robin_T m const true = Robin_T m const false.
Proof.
  intros E E0 Ep Hle.
  rewrite E. rewrite Robin_T_no_melt in E.
  rewrite (Robin_T_melt _ _ E E0 Ep), Hle. reflexivity.
Qed.

(** *** Rezvan *)

Variable global_H : option F.

(** The exponent in use after lines 106-113. *)
Definition Rezvan_gamma (m : Model F) (const : Constants F)
    (gamma : F) (gamma_plus : bool) : F :=
  if gamma_plus
  then #1.39 + #0.044 * np_log (adot m * H m / (k const / (rho const * Cp const)))
  else gamma.

(** The closed form of lines 124-131, for an exponent [gamma] and a
    geothermal flux [q]. *)
Definition Rezvan_profile (m : Model F) (const : Constants F) (gamma q : F) : list F :=
  let alpha := k const / (rho const * Cp const) in
  let lamb := adot m / (alpha * H m ** gamma) in
  let phi := - lamb / (gamma + #1) in
  let Γ_2 := gammaincc (#1 / (#1 + gamma)) (- phi * H m ** (gamma + #1))
             * sp_gamma (#1 / (#1 + gamma)) in
  map (fun zi =>
         Ts m + q * (- phi) ** (#(-1) / (gamma + #1)) / (k const * (gamma + #1))
                * (gammaincc (#1 / (#1 + gamma)) (- phi * zi ** (gamma + #1))
                   * sp_gamma (#1 / (#1 + gamma)) - Γ_2))
      (z m).

(** The strain-heating flux of line 121. *)
Definition Rezvan_qgeo_s (m : Model F) (A tau_dx : F) : F :=
  (#2 / #5) * A * H m * tau_dx ** #4.

(** Whatever [Rezvan_T] returns is the closed form at the prescribed flux. *)
Lemma Rezvan_T_returns_profile (m : Model F) (const : Constants F)
    (rate_factor : list F -> Constants F -> list F)
    (T_ratefactor dHdx tau_dx gamma : F) (gamma_plus : bool) (T : list F) :
  Rezvan_T global_H m const rate_factor T_ratefactor dHdx tau_dx gamma gamma_plus = Ok T ->
  T = Rezvan_profile m const (Rezvan_gamma m const gamma gamma_plus) (qgeo m).
Proof.
  unfold Rezvan_T, Rezvan_profile, Rezvan_gamma. intros E.
  apply bind_Ok in E. destruct E as (tau & _ & E).
  apply bind_Ok in E. destruct E as (ql & _ & E).
  injection E as <-. now rewrite !map_map.
Qed.

(** C2. With a nonzero driving stress the strain-heating flux is
    computed and then not used: the returned profile is the closed form
    at the prescribed flux [m.qgeo], not at [m.qgeo + qgeo_s]. *)
Theorem Rezvan_T_strain_heating_not_used (m : Model F) (const : Constants F)
    (rate_factor : list F -> Constants F -> list F)
    (T_ratefactor dHdx tau_dx gamma : F) (gamma_plus : bool) (A : F) :
  (tau_dx !=? #0) = true ->
  getitem (rate_factor [T_ratefactor] const) 0 = Ok A ->
  Rezvan_T global_H m const rate_factor T_ratefactor dHdx tau_dx gamma gamma_plus
  = Ok (Rezvan_profile m const (Rezvan_gamma m const gamma gamma_plus) (qgeo m)).
Proof.
  intros Htau EA.
  destruct (Rezvan_T global_H m const rate_factor T_ratefactor dHdx tau_dx gamma
              gamma_plus) as [T|e] eqn:E.
  - f_equal. exact (Rezvan_T_returns_profile _ _ _ _ _ _ _ _ E).
  - exfalso. unfold Rezvan_T in E.
    apply negb_true_iff in Htau. rewrite Htau, andb_false_r in E.
    cbn [bind] in E. rewrite Htau in E. cbn [negb] in E.
    rewrite EA in E. discriminate E.
Qed.

(** C7. With a nonzero surface slope and no explicit driving stress, line
    116 reads the bare name [H]: where no such global is bound the call
    raises [NameError] instead of returning a profile. *)
Theorem Rezvan_T_slope_stress_NameError (m : Model F) (const : Constants F)
    (rate_factor : list F -> Constants F -> list F)
    (T_ratefactor dHdx tau_dx gamma : F) (gamma_plus : bool) :
  global_H = None ->
  (dHdx !=? #0) = true ->
  (tau_dx =? #0) = true ->
  Rezvan_T global_H m const rate_factor T_ratefactor dHdx tau_dx gamma gamma_plus
  = Raise NameError.
Proof.
  intros HH Hs Ht. unfold Rezvan_T, lookup_H. rewrite Hs, Ht, HH. reflexivity.
Qed.

(** Where a global [H] is bound, it is that value, not the profile's
    thickness, that enters the driving stress (and the stress is then
    dropped with the strain-heating flux). *)
Lemma Rezvan_T_slope_stress_global (m : Model F) (const : Constants F)
    (rate_factor : list F -> Constants F -> list F)
    (T_ratefactor dHdx tau_dx gamma : F) (gamma_plus : bool) (h : F) :
  global_H = Some h ->
  (dHdx !=? #0) = true ->
  (tau_dx =? #0) = true ->
  Rezvan_T global_H m const rate_factor T_ratefactor dHdx tau_dx gamma gamma_plus
  = Rezvan_T global_H m const rate_factor T_ratefactor #0
      (rho const * g const * h * fabs dHdx) gamma gamma_plus
  \/ (rho const * g const * h * fabs dHdx =? #0) = true.
Proof.
  intros HH Hs Ht.
  destruct (rho const * g const * h * fabs dHdx =? #0) eqn:E0; [now right | left].
  unfold Rezvan_T, lookup_H. rewrite Hs, Ht, HH, E0.
  rewrite andb_false_r. reflexivity.
Qed.

(** C10. With [gamma_plus] set, the [gamma] argument is overwritten by
    the regression [1.39 + 0.044*ln(Pe)] before any use: two calls that
    differ only in [gamma] return the same result, which is that of the
    call with [gamma_plus] unset and the regression value passed in. *)
Theorem Rezvan_T_gamma_plus_overrides_gamma (m : Model F) (const : Constants F)
    (rate_factor : list F -> Constants F -> list F)
    (T_ratefactor dHdx tau_dx gamma1 gamma2 : F) :
  Rezvan_T global_H m const rate_factor T_ratefactor dHdx tau_dx gamma1 true
  = Rezvan_T global_H m const rate_factor T_ratefactor dHdx tau_dx gamma2 true
  /\ Rezvan_T global_H m const rate_factor T_ratefactor dHdx tau_dx gamma1 true
     = Rezvan_T global_H m const rate_factor T_ratefactor dHdx tau_dx
         (#1.39 + #0.044 * np_log (adot m * H m / (k const / (rho const * Cp const))))
         false.
Proof. split; reflexivity. Qed.

(** *** Meyer *)

Definition Meyer_Pe (m : Model F) (const : Constants F) (T_bulk : F) : F :=
  (rho const * heat_capacity T_bulk * adot m * H m) / conductivity T_bulk (rho const).

(** The temperate-thickness fraction computed at lines 189-192 and 201-206. *)
Definition Meyer_hbar (m : Model F) (const : Constants F) (A T_bulk Tb lam : F) : F :=
  let k := conductivity T_bulk (rho const) in
  let S := #2 * A ** (#(-1) / n const) * eps_xy m ** ((n const + #1) / n const) in
  let dT := Tb - Ts m in
  let Br := (S * H m ** #2) / (k * dT) in
  let Pe := Meyer_Pe m const T_bulk in
  let LAM := lam * H m ** #2 / (k * dT) in
  if fabs Pe <? #1e-3 then
    let eps_bar := (k * dT / (A ** (#(-1) / n const) * H m ** #2))
                   ** (n const / (n const + #1)) in
    if eps_xy m >? eps_bar then #1 - np_sqrt (#2 / Br) else #0
  else
    let eps_1 := ((#0.5 * Pe ** #2) / (Pe - #1 + np_exp (- Pe)) + #0.5 * LAM)
                 ** (n const / (n const + #1)) in
    let eps_bar := eps_1 * ((k * dT / (A ** (#(-1) / n const) * H m ** #2))
                            ** (n const / (n const + #1))) in
    if eps_xy m >? eps_bar then
      #1 - (Pe / (Br - LAM))
      + - (#1 / Pe) * (#1 + lambertw_re (- np_exp (- (Pe ** #2 / (Br - LAM)) - #1)))
    else #0.

Lemma Meyer_T_diffusion_unbound_H (m : Model F) (const : Constants F)
    (rate_factor : list F -> Constants F -> list F)
    (T_bulk : Tbulk F) (Tb lam tb A : F) :
  global_H = None ->
  resolve_T_bulk m T_bulk = Ok tb ->
  getitem (rate_factor [tb] const) 0 = Ok A ->
  (fabs (Meyer_Pe m const tb) <? #1e-3) = true ->
  Meyer_T conductivity heat_capacity global_H m const rate_factor T_bulk Tb lam
  = Raise NameError.
Proof.
  intros HH Eb EA HPe. unfold Meyer_T, lookup_H.
  rewrite Eb. cbn [bind]. rewrite EA. cbn [bind].
  unfold Meyer_Pe in HPe. rewrite HPe, HH. reflexivity.
Qed.

(** C3. In the diffusion-only branch the mask of line 195 divides by the
    bare name [H]: where no such global is bound, [Meyer_T] raises
    [NameError] and no profile, clamped or not, is returned. *)
Theorem Meyer_T_diffusion_branch_NameError (m : Model F) (const : Constants F)
    (rate_factor : list F -> Constants F -> list F)
    (T_bulk : Tbulk F) (Tb lam tb A : F) :
  global_H = None ->
  resolve_T_bulk m T_bulk = Ok tb ->
  getitem (rate_factor [tb] const) 0 = Ok A ->
  (fabs (Meyer_Pe m const tb) <? #1e-3) = true ->
  Meyer_T conductivity heat_capacity global_H m const rate_factor T_bulk Tb lam
  = Raise NameError.
Proof. exact (@Meyer_T_diffusion_unbound_H m const rate_factor T_bulk Tb lam tb A). Qed.

(** Where a global [H] is bound, the diffusion-only branch clamps by the
    depth fraction taken against that global, not against [m.H]. *)
Lemma Meyer_T_diffusion_branch_global (m : Model F) (const : Constants F)
    (rate_factor : list F -> Constants F -> list F)
    (T_bulk : Tbulk F) (Tb lam tb A h : F) :
  global_H = Some h ->
  resolve_T_bulk m T_bulk = Ok tb ->
  getitem (rate_factor [tb] const) 0 = Ok A ->
  (fabs (Meyer_Pe m const tb) <? #1e-3) = true ->
  exists raw : F -> F,
    Meyer_T conductivity heat_capacity global_H m const rate_factor T_bulk Tb lam
    = Ok (map (fun zi => if zi / h <? Meyer_hbar m const A tb Tb lam
                         then #0 else raw zi) (z m)).
Proof.
  intros HH Eb EA HPe. unfold Meyer_T, lookup_H, Meyer_hbar.
  rewrite Eb. cbn [bind]. rewrite EA. cbn [bind].
  unfold Meyer_Pe in HPe |- *. rewrite HPe, HH. cbn [bind].
  eexists. rewrite mask_assign_map. reflexivity.
Qed.


(** *** Perol *)

Lemma for_each_map (body : F -> result F) (g : F -> F) (zs T : list F) :
  (forall zi t, body zi = Ok t -> t = g zi) ->
  for_each body zs = Ok T -> T = map g zs.
Proof.
  intros Hb. revert T. induction zs as [|zi zs IH]; intros T E; cbn in E.
  - now injection E as <-.
  - destruct (body zi) as [t|e] eqn:Et; [|discriminate E]. cbn [bind] in E.
    destruct (for_each body zs) as [T'|e]; [|discriminate E]. cbn [bind] in E.
    injection E as <-. cbn [map]. now rewrite (Hb _ _ Et), (IH T' eq_refl).
Qed.

Lemma for_each_Ok (body : F -> result F) (g : F -> F) (zs : list F) :
  (forall zi, In zi zs -> body zi = Ok (g zi)) ->
  for_each body zs = Ok (map g zs).
Proof.
  induction zs as [|zi zs IH]; intros Hb; [reflexivity|].
  cbn [for_each map]. rewrite (Hb zi (or_introl eq_refl)). cbn [bind].
  rewrite IH; [reflexivity|]. intros y Hy. apply Hb. now right.
Qed.

(** The value [Perol_point] computes, given the basal melting point. *)
Definition Perol_value (m : Model F) (k Pe S pmp0 zi : F) : F :=
  let f1 := fun lam => (#1 - np_exp (- lam * Pe * zi ** #2 / (#2 * H m ** #2)))
                       / (#2 * lam * np_sqrt (#1 - lam)) in
  let f2 := fun lam => (#1 - np_exp (- lam * Pe / #2))
                       / (#2 * lam * np_sqrt (#1 - lam)) in
  pmp0 + (Ts m - pmp0) * erf (np_sqrt (Pe / #2) * (zi / H m)) / erf (np_sqrt (Pe / #2))
  - S * H m ** #2 / (k * Pe)
    * (quad f1 #0 #1
       - (erf (np_sqrt (Pe / #2) * (zi / H m)) / erf (np_sqrt (Pe / #2)))
         * quad f2 #0 #1).

Definition Perol_S (m : Model F) (const : Constants F) (A : F) : F :=
  #2 * A ** (#(-1) / n const) * (eps_xy m / #2) ** ((n const + #1) / n const).

Lemma Perol_point_value (m : Model F) (k Pe S pmp0 zi : F) :
  getitem (pmp m) 0 = Ok pmp0 ->
  Perol_point m k Pe S zi = Ok (Perol_value m k Pe S pmp0 zi).
Proof. intros E. unfold Perol_point. rewrite E. reflexivity. Qed.

Lemma Perol_T_value (m : Model F) (const : Constants F)
    (rate_factor : list F -> Constants F -> list F)
    (T_bulk : Tbulk F) (tb A pmp0 : F) :
  resolve_T_bulk m T_bulk = Ok tb ->
  getitem (rate_factor [tb] const) 0 = Ok A ->
  getitem (pmp m) 0 = Ok pmp0 ->
  Perol_T conductivity heat_capacity m const rate_factor T_bulk
  = Ok (map (Perol_value m (conductivity tb (rho const))
               (Perol_Pe conductivity heat_capacity m const tb)
               (Perol_S m const A) pmp0) (z m)).
Proof.
  intros Eb EA Ep. unfold Perol_T. rewrite Eb. cbn [bind]. rewrite EA. cbn [bind].
  apply for_each_Ok. intros zi _. now apply Perol_point_value.
Qed.

(** *** All four solvers *)

(** A call to one of the four solvers, with its arguments. *)
Inductive solver_call : Type :=
| call_Robin (m : Model F) (const : Constants F) (melt : bool)
| call_Rezvan (m : Model F) (const : Constants F)
    (rate_factor : list F -> Constants F -> list F)
    (T_ratefactor dHdx tau_dx gamma : F) (gamma_plus : bool)
| call_Meyer (m : Model F) (const : Constants F)
    (rate_factor : list F -> Constants F -> list F)
    (T_bulk : Tbulk F) (Tb lam : F)
| call_Perol (m : Model F) (const : Constants F)
    (rate_factor : list F -> Constants F -> list F)
    (T_bulk : Tbulk F).

Definition run_call (c : solver_call) : result (list F) :=
  match c with
  | call_Robin m const melt => Robin_T m const melt
  | call_Rezvan m const rf T_rf dHdx tau_dx gamma gamma_plus =>
      Rezvan_T global_H m const rf T_rf dHdx tau_dx gamma gamma_plus
  | call_Meyer m const rf T_bulk Tb lam =>
      Meyer_T conductivity heat_capacity global_H m const rf T_bulk Tb lam
  | call_Perol m const rf T_bulk =>
      Perol_T conductivity heat_capacity m const rf T_bulk
  end.

(** The model [m] over the depth grid [zs], and the call [c] on that
    model. *)
Definition regrid (m : Model F) (zs : list F) : Model F :=
  {| z := zs; Ts := Ts m; H := H m; adot := adot m; qgeo := qgeo m;
     pmp := pmp m; eps_xy := eps_xy m |}.

Definition on_grid (c : solver_call) (zs : list F) : solver_call :=
  match c with
  | call_Robin m const melt => call_Robin (regrid m zs) const melt
  | call_Rezvan m const rf T_rf dHdx tau_dx gamma gamma_plus =>
      call_Rezvan (regrid m zs) const rf T_rf dHdx tau_dx gamma gamma_plus
  | call_Meyer m const rf T_bulk Tb lam => call_Meyer (regrid m zs) const rf T_bulk Tb lam
  | call_Perol m const rf T_bulk => call_Perol (regrid m zs) const rf T_bulk
  end.

(** What each solver computes at one depth [zi].  None of these reads
    the grid [m.z]. *)

(** Robin, lines 52-54: a pass of basal gradient [G], shifted to the
    surface temperature at the surface-most depth [zl]. *)
Definition Robin_depth (m : Model F) (const : Constants F) (G zl zi : F) : F :=
  G * quad (Robin_integrand m const) #0 zi
  + (Ts m - G * quad (Robin_integrand m const) #0 zl).

(** Rezvan, lines 124-131, for an exponent [gamma] and a flux [q]. *)
Definition Rezvan_depth (m : Model F) (const : Constants F) (gamma q zi : F) : F :=
  let alpha := k const / (rho const * Cp const) in
  let lamb := adot m / (alpha * H m ** gamma) in
  let phi := - lamb / (gamma + #1) in
  let Γ_2 := gammaincc (#1 / (#1 + gamma)) (- phi * H m ** (gamma + #1))
             * sp_gamma (#1 / (#1 + gamma)) in
  Ts m + q * (- phi) ** (#(-1) / (gamma + #1)) / (k const * (gamma + #1))
         * (gammaincc (#1 / (#1 + gamma)) (- phi * zi ** (gamma + #1))
            * sp_gamma (#1 / (#1 + gamma)) - Γ_2).

(** Meyer, lines 194-195 and 207-208, with the mask taken against
    [Hmask]. *)
Definition Meyer_depth (m : Model F) (const : Constants F)
    (A T_bulk Tb lam Hmask zi : F) : F :=
  let k := conductivity T_bulk (rho const) in
  let S := #2 * A ** (#(-1) / n const) * eps_xy m ** ((n const + #1) / n const) in
  let dT := Tb - Ts m in
  let Br := (S * H m ** #2) / (k * dT) in
  let Pe := Meyer_Pe m const T_bulk in
  let LAM := lam * H m ** #2 / (k * dT) in
  let hbar := Meyer_hbar m const A T_bulk Tb lam in
  if zi / Hmask <? hbar then #0
  else if fabs Pe <? #1e-3
  then Ts m + dT * (Br / #2)
              * (#1 - (zi / H m) ** #2 - #2 * hbar * (#1 - zi / H m))
  else Ts m + dT * ((Br - LAM) / Pe)
              * (#1 - zi / H m + (#1 / Pe) * np_exp (Pe * (hbar - #1))
                 - (#1 / Pe) * np_exp (Pe * (hbar - zi / H m))).

(** [per_depth c zs g]: [g] is the temperature the call [c] computes at
    one depth when run over the grid [zs].  The grid enters Robin's
    through its surface-most depth and through the choice between the two
    basal gradients, Perol's only where it is empty, and the other two
    not at all. *)
Definition per_depth (c : solver_call) (zs : list F) (g : F -> F) : Prop :=
  match c with
  | call_Robin m const melt =>
      exists G zl,
        getitem zs (-1) = Ok zl /\
        (G = - qgeo m / k const \/
         (melt = true /\
          exists pmp0, getitem (pmp m) 0 = Ok pmp0 /\
                       G = Robin_melt_gradient m const pmp0)) /\
        g = Robin_depth m const G zl
  | call_Rezvan m const rf T_rf dHdx tau_dx gamma gamma_plus =>
      g = Rezvan_depth m const (Rezvan_gamma m const gamma gamma_plus) (qgeo m)
  | call_Meyer m const rf T_bulk Tb lam =>
      exists tb A Hmask,
        resolve_T_bulk m T_bulk = Ok tb /\
        getitem (rf [tb] const) 0 = Ok A /\
        (if fabs (Meyer_Pe m const tb) <? #1e-3
         then global_H = Some Hmask else Hmask = H m) /\
        g = Meyer_depth m const A tb Tb lam Hmask
  | call_Perol m const rf T_bulk =>
      exists tb A,
        resolve_T_bulk m T_bulk = Ok tb /\
        getitem (rf [tb] const) 0 = Ok A /\
        (zs = [] \/
         exists pmp0,
           getitem (pmp m) 0 = Ok pmp0 /\
           g = Perol_value m (conductivity tb (rho const))
                 (Perol_Pe conductivity heat_capacity m const tb)
                 (Perol_S m const A) pmp0)
  end.

(** Whatever [Robin_T] returns is the first pass or, with melting
    allowed, the pass of the melting gradient. *)
Lemma Robin_T_passes (m : Model F) (const : Constants F) (melt : bool) (T : list F) :
  Robin_T m const melt = Ok T ->
  Robin_pass m const (- qgeo m / k const) = Ok T \/
  (melt = true /\
   exists pmp0, getitem (pmp m) 0 = Ok pmp0 /\
                Robin_pass m const (Robin_melt_gradient m const pmp0) = Ok T).
Proof.
  intros E.
  destruct melt; [|rewrite Robin_T_no_melt in E; now left].
  destruct (Robin_pass m const (- qgeo m / k const)) as [T1|e] eqn:E1.
  - destruct (getitem T1 0) as [t0|e] eqn:E0.
    + destruct (getitem (pmp m) 0) as [p0|e] eqn:Ep.
      * rewrite (Robin_T_melt _ _ E1 E0 Ep) in E.
        destruct (t0 >? p0); [right; eauto|]. now left.
      * exfalso. revert E. unfold Robin_T. unfold Robin_pass, Robin_integrand, Robin_q2 in E1.
        destruct (getitem _ (-1)); [|discriminate].
        cbn [bind] in E1 |- *. injection E1 as E1. rewrite E1, E0. cbn [bind].
        rewrite Ep. discriminate.
    + exfalso. revert E. unfold Robin_T. unfold Robin_pass, Robin_integrand, Robin_q2 in E1.
      destruct (getitem _ (-1)); [|discriminate].
      cbn [bind] in E1 |- *. injection E1 as E1. rewrite E1, E0. discriminate.
  - exfalso. revert E. unfold Robin_T. unfold Robin_pass, Robin_integrand, Robin_q2 in E1.
    destruct (getitem _ (-1)); [discriminate E1 | discriminate].
Qed.

Lemma Robin_pass_depth (m : Model F) (const : Constants F) (G : F) (T : list F) :
  Robin_pass m const G = Ok T ->
  exists zl, getitem (z m) (-1) = Ok zl /\ T = map (Robin_depth m const G zl) (z m).
Proof.
  intros E. destruct (getitem (z m) (-1)) as [zl|e] eqn:El.
  - rewrite (Robin_pass_last _ _ _ El) in E. injection E as <-. eauto.
  - exfalso. unfold Robin_pass in E. rewrite !getitem_map, El in E. discriminate E.
Qed.

Lemma Robin_T_depth (m : Model F) (const : Constants F) (melt : bool) (zs T : list F) :
  Robin_T (regrid m zs) const melt = Ok T ->
  exists g, per_depth (call_Robin m const melt) zs g /\ T = map g zs.
Proof.
  intros E. destruct (Robin_T_passes _ _ _ E) as [E1|(Hm & p0 & Ep & E1)];
    destruct (Robin_pass_depth _ _ _ E1) as (zl & El & ->).
  - exists (Robin_depth m const (- qgeo m / k const) zl). split; [|reflexivity].
    cbn [per_depth]. exists (- qgeo m / k const), zl. auto.
  - exists (Robin_depth m const (Robin_melt_gradient m const p0) zl).
    split; [|reflexivity].
    cbn [per_depth]. exists (Robin_melt_gradient m const p0), zl.
    split; [exact El|]. split; [|reflexivity].
    right. split; [exact Hm|]. exists p0. split; [exact Ep | reflexivity].
Qed.

Lemma Meyer_T_depth (m : Model F) (const : Constants F)
    (rate_factor : list F -> Constants F -> list F)
    (T_bulk : Tbulk F) (Tb lam : F) (zs T : list F) :
  Meyer_T conductivity heat_capacity global_H (regrid m zs) const rate_factor T_bulk Tb lam
  = Ok T ->
  exists g, per_depth (call_Meyer m const rate_factor T_bulk Tb lam) zs g /\ T = map g zs.
Proof.
  unfold Meyer_T. intros E.
  change (resolve_T_bulk (regrid m zs) T_bulk) with (resolve_T_bulk m T_bulk) in E.
  destruct (resolve_T_bulk m T_bulk) as [tb|e] eqn:Eb; [|discriminate E].
  cbn [bind] in E.
  destruct (getitem (rate_factor [tb] const) 0) as [A|e] eqn:EA; [|discriminate E].
  cbn [bind] in E. cbn [regrid z Ts H adot qgeo pmp eps_xy] in E.
  destruct (fabs (Meyer_Pe m const tb) <? #1e-3) eqn:HPe;
    unfold Meyer_Pe in HPe; rewrite HPe in E.
  - unfold lookup_H in E. destruct global_H as [h|] eqn:HH; [|discriminate E].
    cbn [bind] in E. injection E as <-. rewrite mask_assign_map.
    exists (Meyer_depth m const A tb Tb lam h). split.
    + cbn [per_depth]. exists tb, A, h. unfold Meyer_Pe. rewrite HPe. auto.
    + apply map_ext. intros zi. unfold Meyer_depth, Meyer_hbar, Meyer_Pe.
      rewrite HPe. reflexivity.
  - injection E as <-. rewrite mask_assign_map.
    exists (Meyer_depth m const A tb Tb lam (H m)). split.
    + cbn [per_depth]. exists tb, A, (H m). unfold Meyer_Pe. rewrite HPe. auto.
    + apply map_ext. intros zi. unfold Meyer_depth, Meyer_hbar, Meyer_Pe.
      rewrite HPe. reflexivity.
Qed.

Lemma Perol_T_depth (m : Model F) (const : Constants F)
    (rate_factor : list F -> Constants F -> list F)
    (T_bulk : Tbulk F) (zs T : list F) :
  Perol_T conductivity heat_capacity (regrid m zs) const rate_factor T_bulk = Ok T ->
  exists g, per_depth (call_Perol m const rate_factor T_bulk) zs g /\ T = map g zs.
Proof.
  unfold Perol_T. intros E.
  change (resolve_T_bulk (regrid m zs) T_bulk) with (resolve_T_bulk m T_bulk) in E.
  destruct (resolve_T_bulk m T_bulk) as [tb|e] eqn:Eb; [|discriminate E].
  cbn [bind] in E.
  destruct (getitem (rate_factor [tb] const) 0) as [A|e] eqn:EA; [|discriminate E].
  cbn [bind] in E. cbn [regrid z] in E.
  destruct (getitem (pmp m) 0) as [p0|e] eqn:Ep.
  - exists (Perol_value m (conductivity tb (rho const))
              (Perol_Pe conductivity heat_capacity m const tb) (Perol_S m const A) p0).
    split.
    + cbn [per_depth]. exists tb, A. repeat split; try assumption. right. eauto.
    + eapply for_each_map; [|exact E].
      intros zi t Et.
      rewrite (@Perol_point_value (regrid m zs) _ _ _ p0 zi Ep) in Et.
      injection Et as <-. reflexivity.
  - exists (fun zi => zi). destruct zs as [|z0 zs'].
    + cbn [for_each] in E. injection E as <-. split; [|reflexivity].
      cbn [per_depth]. exists tb, A. auto.
    + exfalso. cbn [for_each] in E. unfold Perol_point at 1 in E.
      cbn [regrid pmp] in E. rewrite Ep in E. discriminate E.
Qed.

(** C8. Whatever one of the four solvers returns over a depth grid has
    the length of the grid and is aligned with it: the i-th temperature
    is the solver's own value at the i-th depth, by one function of the
    depth for the whole grid. *)
Theorem solver_output_aligned (c : solver_call) (zs T : list F) :
  run_call (on_grid c zs) = Ok T ->
  length T = length zs /\
  exists g : F -> F, per_depth c zs g /\ T = map g zs.
Proof.
  intros E.
  assert (X : exists g : F -> F, per_depth c zs g /\ T = map g zs).
  { destruct c; cbn [run_call on_grid] in E.
    - exact (Robin_T_depth _ _ _ _ E).
    - eexists. split; [reflexivity|].
      exact (Rezvan_T_returns_profile _ _ _ _ _ _ _ _ E).
    - exact (Meyer_T_depth _ _ _ _ _ _ _ E).
    - exact (Perol_T_depth _ _ _ _ _ E). }
  split; [|exact X].
  destruct X as (g' & _ & ->). apply length_map.
Qed.

End SolverFacts.

(** ** Binary64: zeros and not-a-number values *)

Module Binary64Facts.

Import Binary64.
Local Open Scope float_scope.

Definition zero_like (x : float) : Prop := exists s, Prim2SF x = S754_zero s.
Definition zero_or_nan (x : float) : Prop := zero_like x \/ x = nan.

(** Neither infinite nor not-a-number. *)
Definition finiteb (x : float) : bool :=
  match Prim2SF x with
  | S754_zero _ | S754_finite _ _ _ => true
  | _ => false
  end.

Lemma nan_of_spec (x : float) : Prim2SF x = S754_nan -> x = nan.
Proof. intros E. apply Prim2SF_inj. now rewrite E. Qed.

Lemma eqb_zero_like (x : float) : (x =? 0) = true -> zero_like x.
Proof.
  rewrite FloatAxioms.eqb_spec. change (Prim2SF 0) with (S754_zero false).
  unfold zero_like. destruct (Prim2SF x) as [s|s| |s mx ex]; cbn.
  - eauto.
  - destruct s; discriminate.
  - discriminate.
  - destruct s; discriminate.
Qed.

Lemma eqb_not_zero_like (x : float) : (x =? 0) = false -> ~ zero_like x.
Proof.
  rewrite FloatAxioms.eqb_spec. change (Prim2SF 0) with (S754_zero false).
  intros E (s & Hs). rewrite Hs in E. discriminate E.
Qed.

Lemma is_nan_false (x : float) : is_nan x = false -> Prim2SF x <> S754_nan.
Proof.
  unfold is_nan. rewrite FloatAxioms.eqb_spec. intros E Hx. rewrite Hx in E. discriminate E.
Qed.

Lemma is_nan_nan : is_nan nan = true.
Proof. reflexivity. Qed.

Ltac spec_cases x :=
  let s := fresh "s" in
  let mx := fresh "mx" in
  let ex := fresh "ex" in
  destruct (Prim2SF x) as [s|s| |s mx ex] eqn:?.

Lemma mul_zero_finite (a h : float) :
  zero_like a -> finiteb h = true -> zero_like (a * h).
Proof.
  intros (s & Ha) Hh. unfold zero_like, finiteb in *. rewrite mul_spec, Ha.
  spec_cases h; try discriminate Hh; cbn; eauto.
Qed.

Lemma div_zero_nonzero (a d : float) :
  zero_like a -> Prim2SF d <> S754_nan -> ~ zero_like d -> zero_like (a / d).
Proof.
  intros (s & Ha) Hn Hz. unfold zero_like in *. rewrite div_spec, Ha.
  spec_cases d; cbn; eauto.
  - exfalso. apply Hz. eauto.
  - contradiction.
Qed.

Lemma sqrt_zero_like (a : float) : zero_like a -> zero_like (PrimFloat.sqrt a).
Proof.
  intros (s & Ha). unfold zero_like. rewrite sqrt_spec, Ha. cbn. eauto.
Qed.

Lemma mul_zero_l (a x : float) : zero_like a -> zero_or_nan (a * x).
Proof.
  intros (s & Ha). unfold zero_or_nan, zero_like.
  spec_cases x.
  1, 4: left; rewrite mul_spec, Ha; rewrite Heqs0; cbn; eauto.
  all: right; apply nan_of_spec; rewrite mul_spec, Ha, Heqs0; reflexivity.
Qed.

Lemma mul_zero_or_nan_r (x a : float) : zero_or_nan a -> zero_or_nan (x * a).
Proof.
  intros [(s & Ha) | ->]; unfold zero_or_nan, zero_like.
  - spec_cases x.
    1, 4: left; rewrite mul_spec, Ha; rewrite Heqs0; cbn; eauto.
    all: right; apply nan_of_spec; rewrite mul_spec, Ha, Heqs0; reflexivity.
  - right. apply nan_of_spec. rewrite mul_spec.
    change (Prim2SF nan) with S754_nan. now destruct (Prim2SF x).
Qed.

Lemma div_zero_or_nan_zero (p q : float) : zero_or_nan p -> zero_like q -> p / q = nan.
Proof.
  intros [(s & Hp) | ->] (t & Hq); apply nan_of_spec; rewrite div_spec, Hq.
  - now rewrite Hp.
  - reflexivity.
Qed.

Lemma add_nan_r (x : float) : x + nan = nan.
Proof.
  apply nan_of_spec. rewrite add_spec. change (Prim2SF nan) with S754_nan.
  now destruct (Prim2SF x).
Qed.

Lemma sub_nan_l (x : float) : nan - x = nan.
Proof. apply nan_of_spec. rewrite sub_spec. reflexivity. Qed.

Lemma float_lit_2 : (lit 2 : float) = 2.
Proof. reflexivity. Qed.

Lemma div_zero_like_2 (a : float) : zero_like a -> zero_like (a / 2).
Proof. intros (s & Ha). unfold zero_like. rewrite div_spec, Ha. cbn. eauto. Qed.

Section ZeroPeclet.

Context {el : Elementary float} {eq : ErfQuad float}.

(** What is asked of [erf]: it maps a zero to a zero and not-a-number to
    not-a-number, as scipy's does. *)
Hypothesis erf_zero : forall x, zero_like x -> zero_like (erf x).
Hypothesis erf_nan : erf nan = nan.

Lemma erf_zero_or_nan (x : float) : zero_or_nan x -> zero_or_nan (erf x).
Proof.
  intros [Hx | ->]; [left; now apply erf_zero | right; exact erf_nan].
Qed.

Lemma Perol_value_zero_Pe (m : Model float) (kk Pe S pmp0 zi : float) :
  zero_like Pe -> Perol_value m kk Pe S pmp0 zi = nan.
Proof.
  intros HPe. unfold Perol_value. cbn [fadd fsub fmul fdiv np_sqrt float_arith].
  rewrite float_lit_2.
  assert (Hs : zero_like (PrimFloat.sqrt (Pe / 2)))
    by now apply sqrt_zero_like, div_zero_like_2.
  set (num := erf (PrimFloat.sqrt (Pe / 2) * (zi / H m))).
  set (den := erf (PrimFloat.sqrt (Pe / 2))).
  assert (Hden : zero_like den) by now apply erf_zero.
  assert (Hnum : zero_or_nan num) by now apply erf_zero_or_nan, mul_zero_l.
  rewrite (div_zero_or_nan_zero (p := (Ts m - pmp0) * num) (q := den));
    [|now apply mul_zero_or_nan_r | exact Hden].
  now rewrite add_nan_r, sub_nan_l.
Qed.

(** C4. With [adot = 0] the Peclet number is a zero and [Perol_T] has
    no fallback: it raises nothing, and every entry of the profile it
    returns is the not-a-number value of [erf(0)/erf(0)]. *)
Theorem Perol_T_zero_Peclet_nan
    (conductivity : float -> float -> float) (heat_capacity : float -> float)
    (m : Model float) (const : Constants float)
    (rate_factor : list float -> Constants float -> list float)
    (T_bulk : Tbulk float) (tb A pmp0 : float) :
  resolve_T_bulk m T_bulk = Ok tb ->
  getitem (rate_factor [tb] const) 0 = Ok A ->
  getitem (pmp m) 0 = Ok pmp0 ->
  (adot m =? 0) = true ->
  finiteb (H m) = true ->
  is_nan (conductivity tb (rho const) / (rho const * heat_capacity tb)) = false ->
  (conductivity tb (rho const) / (rho const * heat_capacity tb) =? 0) = false ->
  exists T,
    Perol_T conductivity heat_capacity m const rate_factor T_bulk = Ok T /\
    length T = length (z m) /\
    Forall (fun t => is_nan t = true) T.
Proof.
  intros Eb EA Ep Hadot HH Hdn Hdz.
  eexists. split; [exact (Perol_T_value _ _ _ _ _ _ Eb EA Ep)|].
  split; [apply length_map|].
  apply Forall_forall. intros t Ht. apply in_map_iff in Ht.
  destruct Ht as (zi & <- & _).
  rewrite Perol_value_zero_Pe; [reflexivity|].
  unfold Perol_Pe. cbn [fmul fdiv float_arith].
  apply div_zero_nonzero.
  - apply mul_zero_finite; [now apply eqb_zero_like | exact HH].
  - now apply is_nan_false.
  - now apply eqb_not_zero_like.
Qed.

End ZeroPeclet.

End Binary64Facts.

(** ** The real numbers: exact services *)

Module IdealFacts.

Import Ideal.
Local Open Scope R_scope.

Lemma Rlit_Z (n : Z) : (lit (inject_Z n) : R) = IZR n.
Proof. cbn. unfold Q2R. cbn. field. Qed.

Lemma Rlit_0 : (lit 0 : R) = 0. Proof. exact (Rlit_Z 0). Qed.
Lemma Rlit_1 : (lit 1 : R) = 1. Proof. exact (Rlit_Z 1). Qed.
Lemma Rlit_2 : (lit 2 : R) = 2. Proof. exact (Rlit_Z 2). Qed.
Lemma Rlit_m1 : (lit (-1) : R) = -1. Proof. exact (Rlit_Z (-1)). Qed.
Lemma Rlit_m2 : (lit (-2) : R) = -2. Proof. exact (Rlit_Z (-2)). Qed.

Lemma Rltb_true (x y : R) : Rltb x y = true <-> x < y.
Proof. unfold Rltb. destruct (Rlt_dec x y); split; intros; auto; discriminate. Qed.

Lemma Rltb_false (x y : R) : Rltb x y = false <-> y <= x.
Proof.
  unfold Rltb. destruct (Rlt_dec x y); split; intros; auto; try discriminate; lra.
Qed.

Lemma Int_part_IZR (n : Z) : Int_part (IZR n) = n.
Proof.
  unfold Int_part. rewrite <- (tech_up (IZR n) (n + 1)).
  - lia.
  - rewrite plus_IZR. lra.
  - rewrite plus_IZR. lra.
Qed.

Lemma Rpow_2 (x : R) : Rpow x 2 = x * x.
Proof.
  unfold Rpow. destruct (Rlt_dec 0 x) as [Hx|Hx].
  - replace 2 with (INR 2) by (simpl; lra). rewrite Rpower_pow by exact Hx. simpl. ring.
  - rewrite (Int_part_IZR 2). destruct (Req_dec_T 2 2) as [_|N]; [|contradiction].
    simpl. ring.
Qed.

Lemma Rpow_m1 (x : R) : 0 < x -> Rpow x (-1) = / x.
Proof.
  intros Hx. unfold Rpow. destruct (Rlt_dec 0 x) as [_|N]; [|contradiction].
  change (-1) with (Ropp 1). rewrite Rpower_Ropp, Rpower_1 by exact Hx. reflexivity.
Qed.


Section ExactServices.

Context {eq : ErfQuad R}.

(** The laws asked of the services: the quadrature is exact on constant
    integrands and monotone on continuous ones, and [erf] vanishes at 0
    and is positive to the right of it. *)
Hypothesis quad_const : forall c a b : R, quad (fun _ => c) a b = c * (b - a).
Hypothesis quad_monotone : forall (f1 f2 : R -> R) (a b : R),
  continuity f1 -> continuity f2 -> a <= b ->
  (forall x, a <= x <= b -> f1 x <= f2 x) -> quad f1 a b <= quad f2 a b.
Hypothesis quad_gauss : forall q x : R, 0 < q -> 0 <= x ->
  quad (fun t => exp (- (t * t) * q)) 0 x = sqrt PI / (2 * sqrt q) * erf (sqrt q * x).
Hypothesis erf_0 : erf 0 = 0.
Hypothesis erf_pos : forall x : R, 0 < x -> 0 < erf x.

Lemma Perol_value_base (m : Model R) (kk Pe S pmp0 : R) :
  0 < Pe -> Perol_value m kk Pe S pmp0 0 = pmp0.
Proof.
  intros HPe. unfold Perol_value.
  cbn [fadd fsub fmul fdiv fopp np_sqrt real_arith np_exp fpow real_elementary].
  rewrite Rlit_0, Rlit_1, Rlit_2.
  assert (Hs : 0 < sqrt (Pe / 2)) by (apply sqrt_lt_R0; lra).
  assert (He : 0 < erf (sqrt (Pe / 2))) by (apply erf_pos; exact Hs).
  replace (sqrt (Pe / 2) * (0 / H m)) with 0 by (unfold Rdiv; ring).
  rewrite erf_0.
  replace (fun lam : R => (1 - exp (- lam * Pe * Rpow 0 2 / (2 * Rpow (H m) 2)))
                          / (2 * lam * sqrt (1 - lam)))
    with (fun _ : R => 0).
  2:{ apply functional_extensionality. intros lam. rewrite Rpow_2.
      replace (- lam * Pe * (0 * 0) / (2 * Rpow (H m) 2)) with 0 by (unfold Rdiv; ring).
      rewrite exp_0. unfold Rdiv. ring. }
  rewrite quad_const. unfold Rdiv. ring.
Qed.

Lemma Perol_value_surface (m : Model R) (kk Pe S pmp0 : R) :
  0 < Pe -> 0 < H m -> Perol_value m kk Pe S pmp0 (H m) = Ts m.
Proof.
  intros HPe HH. unfold Perol_value.
  cbn [fadd fsub fmul fdiv fopp np_sqrt real_arith np_exp fpow real_elementary].
  rewrite Rlit_0, Rlit_1, Rlit_2.
  assert (Hs : 0 < sqrt (Pe / 2)) by (apply sqrt_lt_R0; lra).
  assert (He : 0 < erf (sqrt (Pe / 2))) by (apply erf_pos; exact Hs).
  replace (sqrt (Pe / 2) * (H m / H m)) with (sqrt (Pe / 2)) by (field; lra).
  replace (fun lam : R => (1 - exp (- lam * Pe * Rpow (H m) 2 / (2 * Rpow (H m) 2)))
                          / (2 * lam * sqrt (1 - lam)))
    with (fun lam : R => (1 - exp (- lam * Pe / 2)) / (2 * lam * sqrt (1 - lam))).
  2:{ apply functional_extensionality. intros lam. rewrite Rpow_2.
      do 3 f_equal. field. lra. }
  replace (erf (sqrt (Pe / 2)) / erf (sqrt (Pe / 2))) with 1 by (field; lra).
  replace ((Ts m - pmp0) * erf (sqrt (Pe / 2)) / erf (sqrt (Pe / 2)))
    with (Ts m - pmp0) by (field; lra).
  ring.
Qed.

Lemma Perol_Pe_pos (conductivity : R -> R -> R) (heat_capacity : R -> R)
    (m : Model R) (const : Constants R) (tb : R) :
  0 < adot m -> 0 < H m -> 0 < rho const ->
  0 < conductivity tb (rho const) -> 0 < heat_capacity tb ->
  0 < Perol_Pe conductivity heat_capacity m const tb.
Proof.
  intros Ha HH Hr Hk Hc. unfold Perol_Pe. cbn [fmul fdiv real_arith].
  apply Rdiv_lt_0_compat; [nra|].
  apply Rdiv_lt_0_compat; [lra | nra].
Qed.

(** C5. For [adot > 0], [H > 0] (and positive density, conductivity and
    heat capacity, so that the Peclet number is positive), the Perol
    profile equals the basal pressure-melting point at every grid point
    [z = 0] and the surface temperature at every grid point [z = H]. *)
Theorem Perol_T_boundary_values
    (conductivity : R -> R -> R) (heat_capacity : R -> R)
    (m : Model R) (const : Constants R)
    (rate_factor : list R -> Constants R -> list R)
    (T_bulk : Tbulk R) (tb A pmp0 : R) :
  resolve_T_bulk m T_bulk = Ok tb ->
  getitem (rate_factor [tb] const) 0 = Ok A ->
  getitem (pmp m) 0 = Ok pmp0 ->
  0 < adot m -> 0 < H m -> 0 < rho const ->
  0 < conductivity tb (rho const) -> 0 < heat_capacity tb ->
  exists T,
    Perol_T conductivity heat_capacity m const rate_factor T_bulk = Ok T /\
    length T = length (z m) /\
    forall i zi t, nth_error (z m) i = Some zi -> nth_error T i = Some t ->
                   (zi = 0 -> t = pmp0) /\ (zi = H m -> t = Ts m).
Proof.
  intros Eb EA Ep Ha HH Hr Hk Hc.
  pose proof (Perol_Pe_pos conductivity heat_capacity m const tb Ha HH Hr Hk Hc) as HPe.
  eexists. split; [exact (Perol_T_value _ _ _ _ _ _ Eb EA Ep)|].
  split; [apply length_map|].
  intros i zi t Ez Et. rewrite nth_error_map, Ez in Et. injection Et as <-.
  split; intros ->.
  - now apply Perol_value_base.
  - now apply Perol_value_surface.
Qed.

(** *** Robin at small accumulation *)

Lemma Robin_q2_R (m : Model R) (const : Constants R) :
  Robin_q2 m const = adot m / (2 * (k const / (rho const * Cp const)) * H m).
Proof. unfold Robin_q2. cbn [fmul fdiv real_arith]. now rewrite Rlit_2. Qed.

Lemma Robin_integrand_R (m : Model R) (const : Constants R) :
  Robin_integrand m const = fun t => exp (- (t * t) * Robin_q2 m const).
Proof.
  apply functional_extensionality. intros t. unfold Robin_integrand.
  cbn [fmul fopp real_arith np_exp fpow real_elementary].
  now rewrite Rlit_2, Rpow_2.
Qed.

Lemma gauss_q_continuity (q : R) : continuity (fun t => exp (- (t * t) * q)).
Proof. reg. Qed.

Lemma gauss_q_integral_bounds (q x : R) :
  0 <= q -> 0 <= x ->
  x * (1 - q * (x * x)) <= quad (fun t => exp (- (t * t) * q)) 0 x <= x.
Proof.
  intros Hq Hx. split.
  - rewrite <- (Rmult_comm (1 - q * (x * x))).
    replace ((1 - q * (x * x)) * x) with ((1 - q * (x * x)) * (x - 0)) by ring.
    rewrite <- quad_const.
    apply quad_monotone; [reg | apply gauss_q_continuity | exact Hx |].
    intros t Ht. apply Rle_trans with (1 + - (t * t) * q); [|apply exp_ineq1_le].
    assert (t * t <= x * x) by nra. nra.
  - replace x with (1 * (x - 0)) at 2 by ring.
    rewrite <- quad_const.
    apply quad_monotone; [apply gauss_q_continuity | reg | exact Hx |].
    intros t Ht. rewrite <- exp_0.
    destruct (Req_dec (- (t * t) * q) 0) as [->|N]; [lra|].
    left. apply exp_increasing. nra.
Qed.

Definition with_adot (m : Model R) (a : R) : Model R :=
  {| z := z m; Ts := Ts m; H := H m; adot := a; qgeo := qgeo m;
     pmp := pmp m; eps_xy := eps_xy m |}.

(** The linear geothermal-gradient profile [Ts + qgeo/k * (H - z)]. *)
Definition Robin_linear (m : Model R) (const : Constants R) : list R :=
  map (fun zi => Ts m + qgeo m / k const * (H m - zi)) (z m).

(** The first pass at depth [zi], for an accumulation rate [a]. *)
Definition Robin_first (m : Model R) (const : Constants R) (a zi : R) : R :=
  let I := quad (Robin_integrand (with_adot m a) const) 0 in
  - qgeo m / k const * I zi + (Ts m - - qgeo m / k const * I (H m)).

Lemma Robin_first_close (m : Model R) (const : Constants R) (a zi : R) :
  0 < k const -> 0 < rho const -> 0 < Cp const -> 0 < H m ->
  0 <= a -> 0 <= zi <= H m ->
  Rabs (Robin_first m const a zi - (Ts m + qgeo m / k const * (H m - zi)))
  <= Rabs (qgeo m / k const) * (H m * H m) * (rho const * Cp const / k const) * a.
Proof.
  intros Hk Hr Hc HH Ha Hz. unfold Robin_first.
  rewrite Robin_integrand_R, Robin_q2_R. cbn [adot H with_adot].
  set (q := a / (2 * (k const / (rho const * Cp const)) * H m)).
  assert (Hal : 0 < k const / (rho const * Cp const))
    by (apply Rdiv_lt_0_compat; nra).
  assert (Hq : 0 <= q).
  { unfold q. apply Rmult_le_pos; [exact Ha|]. left. apply Rinv_0_lt_compat. nra. }
  assert (Eq : q * (2 * (H m * H m * H m))
               = H m * H m * (rho const * Cp const / k const) * a).
  { unfold q. field. repeat split; lra. }
  destruct (gauss_q_integral_bounds Hq (proj1 Hz)) as [L1 U1].
  assert (H0 : 0 <= H m) by lra.
  destruct (gauss_q_integral_bounds Hq H0) as [L2 U2].
  set (I1 := quad (fun t => exp (- (t * t) * q)) 0 zi) in *.
  set (I2 := quad (fun t => exp (- (t * t) * q)) 0 (H m)) in *.
  set (G := qgeo m / k const).
  replace (- qgeo m / k const) with (- G) by (unfold G, Rdiv; ring).
  replace (- G * I1 + (Ts m - - G * I2) - (Ts m + G * (H m - zi)))
    with (G * ((zi - I1) - (H m - I2))) by ring.
  rewrite Rabs_mult.
  replace (Rabs G * (H m * H m) * (rho const * Cp const / k const) * a)
    with (Rabs G * (q * (2 * (H m * H m * H m)))) by (rewrite Eq; ring).
  apply Rmult_le_compat_l; [apply Rabs_pos|].
  assert (B1 : 0 <= zi - I1 <= q * (H m * H m * H m)).
  { split; [lra|].
    apply Rle_trans with (q * (zi * zi * zi)); [nra|].
    apply Rmult_le_compat_l; [exact Hq|].
    assert (zi * zi <= H m * H m) by nra. nra. }
  assert (B2 : 0 <= H m - I2 <= q * (H m * H m * H m)) by (split; nra).
  apply Rabs_le. lra.
Qed.

Lemma Rabs_le_between (x b : R) : Rabs x <= b -> - b <= x <= b.
Proof. unfold Rabs. destruct (Rcase_abs x); lra. Qed.

Lemma Forall2_map_same {A B C : Type} (P : B -> C -> Prop)
    (f : A -> B) (g : A -> C) (l : list A) :
  Forall (fun x => P (f x) (g x)) l -> Forall2 P (map f l) (map g l).
Proof. induction 1; cbn; constructor; auto. Qed.

Lemma Robin_first_pass (m : Model R) (const : Constants R) (a : R) :
  getitem (z m) (-1) = Ok (H m) ->
  Robin_pass (with_adot m a) const (- qgeo m / k const)
  = Ok (map (Robin_first m const a) (z m)).
Proof.
  intros El.
  rewrite (@Robin_pass_last R _ _ _ (with_adot m a) const (- qgeo m / k const) (H m) El).
  cbn [z Ts with_adot fadd fsub fmul fdiv fopp real_arith]. rewrite Rlit_0.
  reflexivity.
Qed.

(** The melt re-solve does not come into play: melting is not allowed,
    or the linear profile is below the melting point at the base. *)
Definition no_resolve (m : Model R) (const : Constants R) (melt : bool) : Prop :=
  melt = false \/
  exists z0 p0, getitem (z m) 0 = Ok z0 /\ getitem (pmp m) 0 = Ok p0 /\
                Ts m + qgeo m / k const * (H m - z0) < p0.

(** C6. Without a melt re-solve, [Robin_T] at zero accumulation raises
    nothing and returns the linear geothermal-gradient profile
    [Ts + qgeo/k*(H - z)], and its profile tends to that one as
    [adot -> 0]. *)
Theorem Robin_T_zero_accumulation_limit
    (m : Model R) (const : Constants R) (melt : bool) :
  0 < k const -> 0 < rho const -> 0 < Cp const -> 0 < H m ->
  getitem (z m) (-1) = Ok (H m) ->
  Forall (fun zi => 0 <= zi <= H m) (z m) ->
  no_resolve m const melt ->
  Robin_T (with_adot m 0) const melt = Ok (Robin_linear m const) /\
  forall eps, 0 < eps ->
    exists delta, 0 < delta /\
      forall a, 0 <= a < delta ->
        exists T, Robin_T (with_adot m a) const melt = Ok T /\
                  Forall2 (fun t l => Rabs (t - l) < eps) T (Robin_linear m const).
Proof.
  intros Hk Hr Hc HH El Hz Hno.
  set (C := Rabs (qgeo m / k const) * (H m * H m) * (rho const * Cp const / k const)).
  assert (HC : 0 <= C).
  { unfold C. apply Rmult_le_pos; [apply Rmult_le_pos; [apply Rabs_pos | nra]|].
    left. apply Rdiv_lt_0_compat; nra. }
  assert (close : forall a zi, 0 <= a -> In zi (z m) ->
            Rabs (Robin_first m const a zi - (Ts m + qgeo m / k const * (H m - zi)))
            <= C * a).
  { intros a zi Ha Hin. apply Robin_first_close; auto.
    exact (proj1 (Forall_forall _ _) Hz zi Hin). }
  (* the returned profile is the first pass as soon as the base stays cold *)
  assert (run : forall a, 0 <= a ->
            (melt = false \/
             exists z0 p0, getitem (z m) 0 = Ok z0 /\ getitem (pmp m) 0 = Ok p0 /\
                           Robin_first m const a z0 <= p0) ->
            Robin_T (with_adot m a) const melt = Ok (map (Robin_first m const a) (z m))).
  { intros a Ha [-> | (z0 & p0 & E0 & Ep & Hle)].
    - rewrite Robin_T_no_melt. exact (@Robin_first_pass m const a El).
    - destruct melt; [|rewrite Robin_T_no_melt; exact (@Robin_first_pass m const a El)].
      rewrite (@Robin_T_melt R _ _ _ (with_adot m a) const
                 (map (Robin_first m const a) (z m)) (Robin_first m const a z0) p0).
      + cbn [fltb real_arith].
        now rewrite (proj2 (Rltb_false p0 (Robin_first m const a z0)) Hle).
      + exact (@Robin_first_pass m const a El).
      + rewrite getitem_map. cbn [z with_adot]. now rewrite E0.
      + exact Ep. }
  split.
  - rewrite run.
    + unfold Robin_linear. f_equal. apply map_ext_in. intros zi Hin.
      pose proof (close 0 zi (Rle_refl 0) Hin) as B. rewrite Rmult_0_r in B.
      pose proof (Rabs_pos (Robin_first m const 0 zi
                            - (Ts m + qgeo m / k const * (H m - zi)))) as P.
      assert (E : Rabs (Robin_first m const 0 zi
                        - (Ts m + qgeo m / k const * (H m - zi))) = 0) by lra.
      destruct (Req_dec (Robin_first m const 0 zi
                         - (Ts m + qgeo m / k const * (H m - zi))) 0) as [Z|N]; [lra|].
      apply Rabs_no_R0 in N. contradiction.
    + lra.
    + destruct Hno as [-> | (z0 & p0 & E0 & Ep & Hlt)]; [now left | right].
      exists z0, p0. repeat split; auto.
      assert (Hin : In z0 (z m)).
      { destruct (getitem_0_Ok _ E0) as (l' & ->). now left. }
      pose proof (close 0 z0 (Rle_refl 0) Hin) as B. rewrite Rmult_0_r in B.
      apply Rabs_le_between in B. lra.
  - intros eps Heps.
    (* the margin left below the melting point, when melting is allowed *)
    assert (Hmargin : exists mu, 0 < mu /\
              (melt = false \/
               exists z0 p0, getitem (z m) 0 = Ok z0 /\ getitem (pmp m) 0 = Ok p0 /\
                             Ts m + qgeo m / k const * (H m - z0) + mu <= p0)).
    { destruct Hno as [-> | (z0 & p0 & E0 & Ep & Hlt)].
      - exists 1. split; [lra | now left].
      - exists (p0 - (Ts m + qgeo m / k const * (H m - z0))). split; [lra | right].
        exists z0, p0. repeat split; auto. lra. }
    destruct Hmargin as (mu & Hmu & Hm).
    set (e := Rmin eps mu).
    assert (He : 0 < e) by (unfold e; apply Rmin_pos; assumption).
    exists (e / (C + 1)). split; [apply Rdiv_lt_0_compat; lra|].
    intros a [Ha Hlt].
    assert (Hsmall : C * a < e).
    { apply Rle_lt_trans with ((C + 1) * a); [nra|].
      replace e with ((C + 1) * (e / (C + 1))) by (field; lra).
      apply Rmult_lt_compat_l; lra. }
    eexists. split.
    + apply run; [exact Ha|].
      destruct Hm as [-> | (z0 & p0 & E0 & Ep & Hle)]; [now left | right].
      exists z0, p0. repeat split; auto.
      assert (Hin : In z0 (z m)).
      { destruct (getitem_0_Ok _ E0) as (l' & ->). now left. }
      pose proof (close a z0 Ha Hin) as B. apply Rabs_le_between in B.
      pose proof (Rmin_r eps mu) as Hmin. fold e in Hmin. lra.
    + unfold Robin_linear. apply Forall2_map_same, Forall_forall. intros zi Hin.
      apply Rle_lt_trans with (C * a); [now apply close|].
      pose proof (Rmin_l eps mu) as Hmin. fold e in Hmin. lra.
Qed.

(** *** Robin: the melt re-solve *)

(** The argument [adot*H/(2*alpha)] of [erf] on line 57. *)
Definition Robin_X (m : Model R) (const : Constants R) : R :=
  adot m * H m / (2 * (k const / (rho const * Cp const))).

Lemma Robin_X_q2 (m : Model R) (const : Constants R) :
  0 < k const -> 0 < rho const -> 0 < Cp const -> 0 < H m ->
  Robin_X m const = Robin_q2 m const * (H m * H m).
Proof.
  intros Hk Hr Hc HH. rewrite Robin_q2_R. unfold Robin_X. field.
  repeat split; lra.
Qed.

(** With the grid running from [z = 0] to [z = H], the re-solved basal
    temperature is [Ts + (pmp0 - Ts) * erf(sqrt X) / sqrt(erf X)]: the
    melting-point constraint asks for [erf(sqrt X)] in the denominator
    too. *)
Lemma Robin_T_melt_basal_value (m : Model R) (const : Constants R)
    (T1 : list R) (t1 p0 : R) :
  0 < k const -> 0 < rho const -> 0 < Cp const -> 0 < H m -> 0 < adot m ->
  getitem (z m) 0 = Ok 0 ->
  getitem (z m) (-1) = Ok (H m) ->
  getitem (pmp m) 0 = Ok p0 ->
  Robin_T m const false = Ok T1 ->
  getitem T1 0 = Ok t1 ->
  p0 < t1 ->
  exists T,
    Robin_T m const true = Ok T /\
    getitem T 0
    = Ok (Ts m + (p0 - Ts m)
                 * (erf (sqrt (Robin_X m const)) / sqrt (erf (Robin_X m const)))).
Proof.
  intros Hk Hr Hc HH Ha E0 El Ep E1 Et1 Hex.
  rewrite Robin_T_no_melt in E1.
  rewrite (Robin_T_melt _ _ E1 Et1 Ep). cbn [fltb real_arith].
  rewrite (proj2 (Rltb_true p0 t1) Hex).
  rewrite (Robin_pass_last _ _ _ El). eexists. split; [reflexivity|].
  rewrite getitem_map, E0. cbn [bind]. f_equal.
  assert (Hal : 0 < k const / (rho const * Cp const))
    by (apply Rdiv_lt_0_compat; nra).
  assert (Hq : 0 < Robin_q2 m const).
  { rewrite Robin_q2_R. apply Rdiv_lt_0_compat; nra. }
  assert (HX : 0 < Robin_X m const).
  { unfold Robin_X. apply Rdiv_lt_0_compat; nra. }
  assert (HeX : 0 < erf (Robin_X m const)) by now apply erf_pos.
  assert (HsX : 0 < sqrt (erf (Robin_X m const))) by now apply sqrt_lt_R0.
  assert (Hsq : 0 < sqrt (Robin_q2 m const)) by now apply sqrt_lt_R0.
  pose proof (sqrt_lt_R0 PI PI_RGT_0) as HP.
  unfold Robin_melt_gradient.
  cbn [fadd fsub fmul fdiv fopp np_sqrt np_pi real_arith fpow real_elementary].
  rewrite Rlit_0, Rlit_2, Rlit_m1, Rlit_m2. fold (Robin_X m const).
  rewrite (Rpow_m1 HsX), Robin_integrand_R.
  rewrite (quad_gauss Hq (Rle_refl 0)), (quad_gauss Hq (Rlt_le _ _ HH)).
  rewrite Rmult_0_r, erf_0.
  replace (sqrt (Robin_q2 m const) * H m) with (sqrt (Robin_X m const)).
  2:{ rewrite (Robin_X_q2 m const Hk Hr Hc HH), sqrt_mult by nra.
      now rewrite sqrt_square by lra. }
  field. repeat split; lra.
Qed.

Lemma PI_upper : PI <= 68 / 21.
Proof.
  pose proof (PI_2_3_7_ineq 0) as [_ U]. cbn in U.
  unfold tg_alt, PI_2_3_7_tg, Ratan_seq in U. cbn in U. lra.
Qed.

(** For [X = 1/32], [erf(sqrt X)] exceeds [sqrt(erf X)] by more than 2%. *)
Lemma erf_sqrt_mismatch :
  102 / 100 * sqrt (erf (1 / 32)) < erf (sqrt (1 / 32)).
Proof.
  pose proof (sqrt_lt_R0 PI PI_RGT_0) as HP.
  pose proof (sqrt_sqrt PI (Rlt_le _ _ PI_RGT_0)) as Hpi.
  pose proof PI_upper as Hup.
  assert (Hs18 : sqrt PI < 18 / 10) by nra.
  set (r := sqrt (1 / 32)).
  assert (Hr : 0 < r) by (apply sqrt_lt_R0; lra).
  assert (Hrr : r * r = 1 / 32) by (apply sqrt_sqrt; lra).
  (* bounds on the two integrals, read through the Gaussian law at q = 1 *)
  assert (B : forall x, 0 <= x ->
            x * (1 - x * x) <= sqrt PI / 2 * erf x <= x).
  { intros x Hx.
    pose proof (gauss_q_integral_bounds Rle_0_1 Hx) as Bx.
    rewrite (quad_gauss Rlt_0_1 Hx), sqrt_1 in Bx.
    replace (sqrt PI / (2 * 1) * erf (1 * x)) with (sqrt PI / 2 * erf x) in Bx
      by (rewrite Rmult_1_l; field).
    lra. }
  destruct (B r (Rlt_le _ _ Hr)) as [Lr _].
  destruct (B (1 / 32)) as [_ Ux]; [lra|].
  assert (Ha : 0 < erf r) by now apply erf_pos.
  assert (Hb : 0 < erf (1 / 32)) by (apply erf_pos; lra).
  set (a := erf r) in *. set (b := erf (1 / 32)) in *. set (s := sqrt PI) in *.
  replace (102 / 100 * sqrt b) with (sqrt (102 / 100 * (102 / 100) * b)).
  2:{ rewrite sqrt_mult by lra. now rewrite sqrt_square by lra. }
  replace a with (sqrt (a * a)) at 1 by (apply sqrt_square; lra).
  apply sqrt_lt_1; [nra | nra |].
  (* erf X <= 2X/sqrt(pi) and erf r >= 2 r (1 - X)/sqrt(pi) *)
  rewrite Hrr in Lr.
  assert (L1 : r * (31 / 32) * 2 <= s * a) by lra.
  assert (U1 : s * b <= 1 / 16) by lra.
  assert (Hsq : (r * (31 / 32) * 2) * (r * (31 / 32) * 2) <= (s * a) * (s * a)) by nra.
  assert (Hrr2 : (r * (31 / 32) * 2) * (r * (31 / 32) * 2) = 961 / 8192) by nra.
  (* 1.0404 s (s b) <= 1.0404 s/16 < 1.0404 * 1.8/16 < 961/8192 <= s^2 a^2 *)
  assert (Hlt : s * (s * (102 / 100 * (102 / 100) * b)) < s * s * (a * a)) by nra.
  assert (Hss : 0 < s * s) by nra.
  apply Rmult_lt_reg_l with (s * s); [exact Hss|]. lra.
Qed.

End ExactServices.

End IdealFacts.

(** ** The Riemann integral and its error function satisfy the laws *)

Module RiemannServices.

Import Ideal.
Local Open Scope R_scope.

Lemma RInt_eq (f : R -> R) (a b : R) (pr : Riemann_integrable f a b) :
  RInt f a b = RiemannInt pr.
Proof.
  unfold RInt. destruct (excluded_middle_informative _) as [i|N].
  - apply RiemannInt_P5.
  - exfalso. apply N. constructor. exact pr.
Qed.

Lemma continuity_integrable (f : R -> R) (a b : R) :
  continuity f -> a <= b -> Riemann_integrable f a b.
Proof.
  intros Cf Hab. apply continuity_implies_RiemannInt; [exact Hab|].
  intros x _. apply Cf.
Qed.

Lemma RInt_const (c a b : R) : RInt (fun _ => c) a b = c * (b - a).
Proof.
  change (fun _ : R => c) with (fct_cte c).
  rewrite (RInt_eq (RiemannInt_P14 a b c)). apply RiemannInt_P15.
Qed.

Lemma RInt_monotone (f1 f2 : R -> R) (a b : R) :
  continuity f1 -> continuity f2 -> a <= b ->
  (forall x, a <= x <= b -> f1 x <= f2 x) -> RInt f1 a b <= RInt f2 a b.
Proof.
  intros C1 C2 Hab Hle.
  rewrite (RInt_eq (continuity_integrable C1 Hab)),
          (RInt_eq (continuity_integrable C2 Hab)).
  apply RiemannInt_P19; [exact Hab|]. intros x Hx. apply Hle. lra.
Qed.

(** Change of variable [s = c*t]. *)
Lemma RInt_scale (f : R -> R) (c x : R) :
  continuity f -> 0 < c -> 0 <= x ->
  RInt (fun t => f (c * t)) 0 x = / c * RInt f 0 (c * x).
Proof.
  intros Cf Hc Hx.
  set (g := fun t => f (c * t)).
  assert (Cg : continuity g) by (unfold g; reg; apply Cf).
  assert (Hb : 0 <= c * x) by nra.
  assert (C0f : forall y, 0 <= y <= c * x -> continuity_pt f y) by (intros; apply Cf).
  assert (C0g : forall y, 0 <= y <= x -> continuity_pt g y) by (intros; apply Cg).
  set (P2 := primitive Hb (FTC_P1 Hb C0f)).
  set (P1 := primitive Hx (FTC_P1 Hx C0g)).
  set (G := fun t => / c * P2 (c * t)).
  assert (A1 : antiderivative g P1 0 x) by apply RiemannInt_P29.
  assert (AG : antiderivative g G 0 x).
  { split; [|exact Hx]. intros t Ht.
    assert (D : derivable_pt_lim G t (g t)).
    { unfold G, g.
      replace (f (c * t)) with (/ c * (f (c * t) * c)) by (field; lra).
      apply (derivable_pt_lim_scal (fun t => P2 (c * t)) (/ c) t).
      apply (derivable_pt_lim_comp (fun t => c * t) P2).
      - intros eps He. exists (mkposreal 1 Rlt_0_1). intros h Hh _.
        replace ((c * (t + h) - c * t) / h - c) with 0 by (field; exact Hh).
        now rewrite Rabs_R0.
      - apply RiemannInt_P28. nra. }
    exists (exist _ (g t) D). reflexivity. }
  destruct (antiderivative_Ucte g P1 G 0 x A1 AG) as (C & HC).
  rewrite (RInt_eq (continuity_integrable Cg Hx)),
          (RInt_eq (continuity_integrable Cf Hb)).
  rewrite (RiemannInt_P20 Hx (FTC_P1 Hx C0g)), (RiemannInt_P20 Hb (FTC_P1 Hb C0f)).
  fold P1 P2. rewrite (HC x), (HC 0) by lra. unfold G.
  rewrite Rmult_0_r. ring.
Qed.

Lemma gauss_continuity : continuity gauss.
Proof. unfold gauss. reg. Qed.

Lemma sqrt_PI_pos : 0 < sqrt PI.
Proof. apply sqrt_lt_R0, PI_RGT_0. Qed.

Lemma RInt_gauss_q (q x : R) :
  0 < q -> 0 <= x ->
  RInt (fun t => exp (- (t * t) * q)) 0 x = sqrt PI / (2 * sqrt q) * erf_R (sqrt q * x).
Proof.
  intros Hq Hx. pose proof sqrt_PI_pos as HP.
  assert (Hs : 0 < sqrt q) by now apply sqrt_lt_R0.
  replace (fun t => exp (- (t * t) * q)) with (fun t => gauss (sqrt q * t)).
  2:{ apply functional_extensionality. intros t. unfold gauss. f_equal.
      replace (sqrt q * t * (sqrt q * t)) with (t * t * (sqrt q * sqrt q)) by ring.
      rewrite sqrt_sqrt by lra. ring. }
  rewrite (RInt_scale gauss_continuity Hs Hx). unfold erf_R. field. lra.
Qed.

Lemma erf_R_0 : erf_R 0 = 0.
Proof.
  unfold erf_R. rewrite (RInt_eq (RiemannInt_P7 gauss 0)), RiemannInt_P9. ring.
Qed.

Lemma erf_R_pos (x : R) : 0 < x -> 0 < erf_R x.
Proof.
  intros Hx. unfold erf_R. pose proof sqrt_PI_pos as HP.
  apply Rmult_lt_0_compat; [apply Rdiv_lt_0_compat; lra|].
  apply Rlt_le_trans with (exp (- (x * x)) * (x - 0)).
  - apply Rmult_lt_0_compat; [apply exp_pos | lra].
  - rewrite <- RInt_const.
    apply RInt_monotone; [reg | apply gauss_continuity | lra |].
    intros t Ht. unfold gauss.
    destruct (Req_dec (t * t) (x * x)) as [->|N]; [lra|].
    left. apply exp_increasing. nra.
Qed.

End RiemannServices.

(** * Concrete inputs *)

(** ** Real arithmetic, Riemann integral *)

Module RealExamples.

Import Ideal IdealFacts RiemannServices.
Local Open Scope R_scope.

#[local] Existing Instance riemann_erfquad.

(** Ice constants and a column of 1000 m in three grid points. *)
Definition iceR : Constants R :=
  {| k := 21 / 10; rho := 917; Cp := 2097; L := 333500; g := 981 / 100;
     n := 3; spy := 31556736 |}.

(** A dry, warm-based site: [adot*H/(2*alpha) = 1/32] and a geothermal
    flux of 0.12 W/m^2. *)
Definition dry_siteR : Model R :=
  {| z := [0; 500; 1000]; Ts := -30; H := 1000;
     adot := 1 / 16 * (21 / 10 / (917 * 2097)) / 1000;
     qgeo := 12 / 100; pmp := [-7 / 10; -35 / 100; 0]; eps_xy := 1 / 1000000000 |}.

Definition conductivity_iceR (T density : R) : R := 21 / 10.
Definition heat_capacity_iceR (T : R) : R := 2097.
Definition rate_factor_iceR (Ts : list R) (const : Constants R) : list R :=
  map (fun _ => 1 / 1000000) Ts.

Lemma dry_site_X : Robin_X dry_siteR iceR = 1 / 32.
Proof. unfold Robin_X. cbn [adot H k rho Cp dry_siteR iceR]. field. Qed.

Lemma dry_site_q2 : Robin_q2 dry_siteR iceR = 1 / 32000000.
Proof. rewrite Robin_q2_R. cbn [adot H k rho Cp dry_siteR iceR]. field. Qed.

(** C1. At the dry site the first pass puts the base above the melting
    point of -0.7, melting is allowed, and the re-solved basal
    temperature is above -0.2: it stays more than half a degree away from
    the basal pressure-melting point instead of being locked to it. *)
Theorem Robin_T_melt_basal_mismatch :
  exists T1 t1 T t0,
    Robin_T dry_siteR iceR false = Ok T1 /\ getitem T1 0 = Ok t1 /\
    getitem (pmp dry_siteR) 0 = Ok (-7 / 10) /\ -7 / 10 < t1 /\
    Robin_T dry_siteR iceR true = Ok T /\ getitem T 0 = Ok t0 /\ -2 / 10 < t0.
Proof.
  assert (El : getitem (z dry_siteR) (-1) = Ok (H dry_siteR)) by reflexivity.
  assert (E1 : Robin_T dry_siteR iceR false
               = Ok (map (Robin_first dry_siteR iceR (adot dry_siteR)) (z dry_siteR))).
  { rewrite Robin_T_no_melt. exact (Robin_first_pass dry_siteR iceR (adot dry_siteR) El). }
  set (t1 := Robin_first dry_siteR iceR (adot dry_siteR) 0).
  assert (Et1 : getitem (map (Robin_first dry_siteR iceR (adot dry_siteR)) (z dry_siteR)) 0
                = Ok t1) by reflexivity.
  assert (Ht1 : -7 / 10 < t1).
  { unfold t1, Robin_first.
    change (with_adot dry_siteR (adot dry_siteR)) with dry_siteR.
    rewrite Robin_integrand_R, dry_site_q2.
    assert (Hq : 0 <= 1 / 32000000) by lra.
    destruct (gauss_q_integral_bounds (eq := riemann_erfquad) RInt_const RInt_monotone
                Hq (Rle_refl 0)) as [L0 U0].
    assert (H1000 : 0 <= 1000) by lra.
    destruct (gauss_q_integral_bounds (eq := riemann_erfquad) RInt_const RInt_monotone
                Hq H1000) as [L1 U1].
    cbn [qgeo k Ts H dry_siteR iceR quad riemann_erfquad] in *.
    lra. }
  destruct (Robin_T_melt_basal_value (eq := riemann_erfquad)
              RInt_gauss_q erf_R_0 erf_R_pos dry_siteR iceR
              (T1 := map (Robin_first dry_siteR iceR (adot dry_siteR)) (z dry_siteR))
              (t1 := t1) (p0 := -7 / 10)) as (T & ET & E0); try reflexivity.
  1-5: cbn; lra.
  - exact E1.
  - exact Ht1.
  - exists (map (Robin_first dry_siteR iceR (adot dry_siteR)) (z dry_siteR)), t1, T.
    eexists.
    split; [exact E1|]. split; [reflexivity|]. split; [reflexivity|].
    split; [exact Ht1|]. split; [exact ET|]. split; [exact E0|].
    rewrite dry_site_X.
    pose proof (erf_sqrt_mismatch (eq := riemann_erfquad)
                  RInt_const RInt_monotone RInt_gauss_q erf_R_pos) as M.
    cbn [erf riemann_erfquad Ts dry_siteR] in *.
    assert (Hb : 0 < erf_R (1 / 32)) by (apply erf_R_pos; lra).
    assert (Hs : 0 < sqrt (erf_R (1 / 32))) by now apply sqrt_lt_R0.
    assert (Hr : 102 / 100 < erf_R (sqrt (1 / 32)) / sqrt (erf_R (1 / 32))).
    { apply Rmult_lt_reg_r with (sqrt (erf_R (1 / 32))); [exact Hs|].
      replace (erf_R (sqrt (1 / 32)) / sqrt (erf_R (1 / 32)) * sqrt (erf_R (1 / 32)))
        with (erf_R (sqrt (1 / 32))) by (field; lra).
      exact M. }
    nra.
Qed.

(** A cold-based site: the linear profile stays below the melting point. *)
Definition cold_siteR : Model R :=
  {| z := [0; 500; 1000]; Ts := -30; H := 1000;
     adot := 1 / 16 * (21 / 10 / (917 * 2097)) / 1000;
     qgeo := 5 / 100; pmp := [-7 / 10; -35 / 100; 0]; eps_xy := 1 / 1000000000 |}.

Lemma Perol_T_boundary_values_witness :
  exists T,
    Perol_T conductivity_iceR heat_capacity_iceR dry_siteR iceR rate_factor_iceR average = Ok T /\
    length T = length (z dry_siteR) /\
    forall i zi t, nth_error (z dry_siteR) i = Some zi -> nth_error T i = Some t ->
                   (zi = 0 -> t = -7 / 10) /\ (zi = H dry_siteR -> t = Ts dry_siteR).
Proof.
  eapply (Perol_T_boundary_values (eq := riemann_erfquad) RInt_const erf_R_0 erf_R_pos
            conductivity_iceR heat_capacity_iceR dry_siteR iceR rate_factor_iceR average).
  - reflexivity.
  - reflexivity.
  - reflexivity.
  - cbn. lra.
  - cbn. lra.
  - cbn. lra.
  - unfold conductivity_iceR. lra.
  - unfold heat_capacity_iceR. lra.
Defined.

Lemma Robin_T_zero_accumulation_limit_witness :
  Robin_T (with_adot cold_siteR 0) iceR true = Ok (Robin_linear cold_siteR iceR) /\
  forall eps, 0 < eps ->
    exists delta, 0 < delta /\
      forall a, 0 <= a < delta ->
        exists T, Robin_T (with_adot cold_siteR a) iceR true = Ok T /\
                  Forall2 (fun t l => Rabs (t - l) < eps) T (Robin_linear cold_siteR iceR).
Proof.
  apply (Robin_T_zero_accumulation_limit (eq := riemann_erfquad) RInt_const RInt_monotone
           (m := cold_siteR) (const := iceR) (melt := true)).
  - cbn. lra.
  - cbn. lra.
  - cbn. lra.
  - cbn. lra.
  - reflexivity.
  - cbn [z cold_siteR H]. repeat constructor; lra.
  - right. exists 0, (-7 / 10). repeat split; try reflexivity. cbn. lra.
Defined.

End RealExamples.

(** ** Binary64, reference services *)

Module Binary64Examples.

Import Binary64 Binary64Facts.
Local Open Scope float_scope.
#[local] Set Warnings "-inexact-float".

#[local] Existing Instance ref_elementary.
#[local] Existing Instance ref_erfquad.
#[local] Existing Instance ref_gammaw.

(** Ice constants (SI units). *)
Definition ice : Constants float :=
  {| k := 2.1; rho := 917; Cp := 2097;
     L := 333500; g := 9.81; n := 3;
     spy := 31556736 |}.

Definition grid : list float := [0; 250; 500; 750; 1000].
Definition melting : list float :=
  [-0.7; -0.5; -0.25; -0.125; 0].

(** A cold-based site: 0.1 m/yr of accumulation, 0.05 W/m^2 from below. *)
Definition cold_site : Model float :=
  {| z := grid; Ts := -30; H := 1000; adot := 0.1 / 31556736;
     qgeo := 0.05; pmp := melting;
     eps_xy := 1e-9 |}.

(** The same site over a geothermal flux of 0.12 W/m^2. *)
Definition warm_site : Model float :=
  {| z := grid; Ts := -30; H := 1000; adot := 0.1 / 31556736;
     qgeo := 0.12; pmp := melting;
     eps_xy := 1e-9 |}.

(** No accumulation at all, cold base / warm base. *)
Definition still_site : Model float :=
  {| z := grid; Ts := -30; H := 1000; adot := 0;
     qgeo := 0.05; pmp := melting;
     eps_xy := 1e-9 |}.

Definition still_warm_site : Model float :=
  {| z := grid; Ts := -30; H := 1000; adot := 0;
     qgeo := 0.12; pmp := melting;
     eps_xy := 1e-9 |}.

(** A dry, warm-based site: [adot*H/(2*alpha) = 1/32], about 2 mm/yr. *)
Definition dry_site : Model float :=
  {| z := [0; 500; 1000]; Ts := -30; H := 1000;
     adot := 1 / 16 * (2.1 / (917 * 2097)) / 1000;
     qgeo := 0.12; pmp := [-0.7; -0.35; 0]; eps_xy := 1e-9 |}.

(** Stand-ins for the [ice_properties] collaborators. *)
Definition conductivity_ice (T density : float) : float := 2.1.
Definition heat_capacity_ice (T : float) : float := 2097.
Definition rate_factor_ice (Ts : list float) (const : Constants float) : list float :=
  map (fun _ => 3.5e-25) Ts.

Lemma float_of_spec_zero (x : float) (s : bool) :
  Prim2SF x = S754_zero s -> x = if s then -0 else 0.
Proof. intros E. apply Prim2SF_inj. rewrite E. now destruct s. Qed.

Lemma erf_ref_zero (x : float) : zero_like x -> zero_like (erf_ref x).
Proof.
  intros (s & E). rewrite (float_of_spec_zero x E).
  destruct s; [exists true | exists false]; vm_compute; reflexivity.
Qed.

Lemma erf_ref_nan : erf_ref nan = nan.
Proof. reflexivity. Qed.

Lemma Robin_T_melt_flag_witness :
  Robin_T cold_site ice true = Robin_T cold_site ice false.
Proof.
  eapply (Robin_T_melt_flag_without_exceedance cold_site ice).
  - vm_compute. reflexivity.
  - vm_compute. reflexivity.
  - reflexivity.
  - vm_compute. reflexivity.
Defined.

Lemma Rezvan_T_strain_heating_witness :
  Rezvan_T None cold_site ice rate_factor_ice (-10) 0 100000 1.397 true
  = Ok (Rezvan_profile cold_site ice
          (Rezvan_gamma cold_site ice 1.397 true) (qgeo cold_site)).
Proof.
  eapply (Rezvan_T_strain_heating_not_used None cold_site ice rate_factor_ice).
  - vm_compute. reflexivity.
  - vm_compute. reflexivity.
Defined.

(** A driving stress of 100 kPa adds 0.014 W/m^2 of strain heating to
    the 0.05 W/m^2 from below.  The returned profile is the one returned
    without any stress; the closed form at the effective flux is five
    degrees warmer at the base. *)
Example Rezvan_T_strain_heating_example :
  Rezvan_T None cold_site ice rate_factor_ice (-10) 0 100000 1.397 true
  = Ok [-12.21726692260366; -18.10013505996768; -23.406859937829505;
        -27.469560548066212; -30] /\
  Rezvan_T None cold_site ice rate_factor_ice (-10) 0 0 1.397 true
  = Ok [-12.21726692260366; -18.10013505996768; -23.406859937829505;
        -27.469560548066212; -30] /\
  Rezvan_profile cold_site ice (Rezvan_gamma cold_site ice 1.397 true)
    (qgeo cold_site + Rezvan_qgeo_s cold_site 3.5e-25 100000)%num
  = [-7.2381016609326849; -14.768172876758632; -21.560780720421768;
     -26.761037501524754; -30].
Proof. split; [|split]; vm_compute; reflexivity. Qed.

Lemma Rezvan_T_slope_stress_witness :
  Rezvan_T None cold_site ice rate_factor_ice (-10) 0.01 0
    1.397 true
  = Raise NameError.
Proof.
  apply (Rezvan_T_slope_stress_NameError cold_site ice rate_factor_ice).
  - reflexivity.
  - vm_compute. reflexivity.
  - vm_compute. reflexivity.
Defined.

Lemma Meyer_T_diffusion_branch_witness :
  Meyer_T conductivity_ice heat_capacity_ice None still_site ice rate_factor_ice
    average 0 0
  = Raise NameError.
Proof.
  eapply (Meyer_T_diffusion_branch_NameError conductivity_ice heat_capacity_ice
            still_site ice rate_factor_ice average 0 0).
  - reflexivity.
  - vm_compute. reflexivity.
  - vm_compute. reflexivity.
  - vm_compute. reflexivity.
Defined.

Lemma solver_output_aligned_witness :
  exists T,
    Perol_T conductivity_ice heat_capacity_ice cold_site ice rate_factor_ice average = Ok T /\
    length T = length grid /\
    exists g : float -> float,
      per_depth conductivity_ice heat_capacity_ice None
        (call_Perol cold_site ice rate_factor_ice average) grid g /\
      T = map g grid.
Proof.
  eexists. split; [vm_compute; reflexivity|].
  apply (solver_output_aligned conductivity_ice heat_capacity_ice None
           (call_Perol cold_site ice rate_factor_ice average) grid).
  vm_compute. reflexivity.
Defined.

Lemma Perol_T_zero_Peclet_witness :
  exists T,
    Perol_T conductivity_ice heat_capacity_ice still_site ice rate_factor_ice average = Ok T /\
    length T = length (z still_site) /\
    Forall (fun t => is_nan t = true) T.
Proof.
  eapply (Perol_T_zero_Peclet_nan (eq := ref_erfquad) erf_ref_zero erf_ref_nan
            conductivity_ice heat_capacity_ice still_site ice rate_factor_ice average).
  - vm_compute. reflexivity.
  - vm_compute. reflexivity.
  - reflexivity.
  - reflexivity.
  - reflexivity.
  - reflexivity.
  - reflexivity.
Defined.

(** With [adot = 0] the Perol profile is not-a-number at every depth,
    not an interpolation between -0.7 and -30. *)
Lemma Perol_T_zero_Peclet_counterexample :
  adot still_site = 0 /\
  Perol_T conductivity_ice heat_capacity_ice still_site ice rate_factor_ice average
  = Ok [nan; nan; nan; nan; nan].
Proof. split; vm_compute; reflexivity. Qed.

(** With [adot = 0], melting allowed and a warm base, the Robin profile
    is not-a-number at every depth, not the linear profile. *)
Lemma Robin_T_zero_accumulation_counterexample :
  adot still_warm_site = 0 /\
  Robin_T still_warm_site ice false
  = Ok [27.142857142857139; 12.857142857142854; -1.4285714285714306;
        -15.714285714285715; -30] /\
  Robin_T still_warm_site ice true = Ok [nan; nan; nan; nan; nan].
Proof. split; [|split]; vm_compute; reflexivity. Qed.

(** The melt re-solve in binary64.  At the dry site the first pass puts
    the base at 26.6 and the re-solve at 0.81, above the melting point
    of -0.7; at the warm site the first pass gives 8.3 and the re-solve
    -2.7, below it.  Neither is locked to -0.7. *)
Example Robin_T_melt_basal_binary64 :
  Robin_T dry_site ice false = Ok [26.553158135257782; -1.9440397365398603; -30] /\
  Robin_T dry_site ice true = Ok [0.80780366988840768; -14.71628209516383; -30] /\
  Robin_T warm_site ice false
  = Ok [8.3228346530361534; -5.5425726382759706; -17.139749498072312;
        -25.252866658009211; -30] /\
  Robin_T warm_site ice true
  = Ok [-2.7392341117326922; -12.602325543670608; -20.851922062353289;
        -26.623149309072669; -30].
Proof. split; [|split; [|split]]; vm_compute; reflexivity. Qed.

End Binary64Examples.

(** * Edge behaviour of the solvers *)

Section SolverEdges.

Context {F : Type} `{Arith F} `{Elementary F} `{ErfQuad F} `{GammaW F}.

Variable conductivity : F -> F -> F.
Variable heat_capacity : F -> F.
Variable global_H : option F.

Local Open Scope num_scope.

Lemma getitem_nil {A : Type} (i : Z) : getitem (@nil A) i = Raise IndexError.
Proof.
  unfold getitem. cbn [length Z.of_nat].
  destruct (i <? 0)%Z eqn:Ei.
  - rewrite Z.add_0_l, Ei. reflexivity.
  - replace (0 <=? i)%Z with true by (symmetry; apply Z.leb_le; apply Z.ltb_ge in Ei; lia).
    now rewrite orb_true_r.
Qed.

Lemma Robin_pass_nonempty (m : Model F) (const : Constants F) (G : F) :
  z m <> [] -> exists t T, Robin_pass m const G = Ok (t :: T).
Proof.
  intros Hz. destruct (z m) as [|z0 zs] eqn:Ez; [contradiction|].
  unfold Robin_pass. rewrite Ez.
  rewrite (@getitem_last _ _ G) by (cbn; discriminate). cbn [bind map].
  eexists. eexists. reflexivity.
Qed.

(** Whatever [Robin_T] returns is one pass, for some basal gradient. *)
Lemma Robin_T_is_pass (m : Model F) (const : Constants F) (melt : bool) (T : list F) :
  Robin_T m const melt = Ok T -> exists G, Robin_pass m const G = Ok T.
Proof.
  intros E.
  destruct melt; [|rewrite Robin_T_no_melt in E; eauto].
  destruct (Robin_pass m const (- qgeo m / k const)) as [T1|e] eqn:E1.
  - assert (E1' := E1). unfold Robin_pass, Robin_integrand, Robin_q2 in E1'.
    destruct (getitem T1 0) as [t0|e] eqn:E0.
    + destruct (getitem (pmp m) 0) as [p0|e] eqn:Ep.
      * rewrite (Robin_T_melt _ _ E1 E0 Ep) in E.
        destruct (t0 >? p0); [eauto|]. injection E as <-. eauto.
      * exfalso. revert E. unfold Robin_T.
        destruct (getitem _ (-1)); [|discriminate].
        cbn [bind] in E1' |- *. injection E1' as E1'. rewrite E1', E0. cbn [bind].
        rewrite Ep. discriminate.
    + exfalso. revert E. unfold Robin_T.
      destruct (getitem _ (-1)); [|discriminate].
      cbn [bind] in E1' |- *. injection E1' as E1'. rewrite E1', E0. discriminate.
  - exfalso. revert E. unfold Robin_T. unfold Robin_pass, Robin_integrand, Robin_q2 in E1.
    destruct (getitem _ (-1)); [discriminate E1 | discriminate].
Qed.

(** X1. An empty depth grid has no surface-most point: [TTb[-1]] raises. *)
Theorem Robin_T_empty_grid (m : Model F) (const : Constants F) (melt : bool) :
  z m = [] -> Robin_T m const melt = Raise IndexError.
Proof. intros Hz. unfold Robin_T. rewrite Hz. reflexivity. Qed.

Lemma Robin_T_no_melt_returns (m : Model F) (const : Constants F) :
  z m <> [] ->
  exists T, Robin_T m const false = Ok T /\ length T = length (z m).
Proof.
  intros Hz.
  destruct (Robin_pass_nonempty m const (- qgeo m / k const) Hz) as (t & T & E).
  exists (t :: T). rewrite Robin_T_no_melt. split; [exact E|].
  destruct (Robin_pass_map _ _ _ E) as (c & ->). apply length_map.
Qed.

(** X2. With melting allowed the basal melting point [pmp[0]] is read on
    every grid; with melting disabled [pmp] is never read.  The first
    four hypotheses keep the scalar arithmetic of lines 47-51 from raising
    before that point: no zero divisor on lines 47, 49 and 50, and depths
    whose square on line 51 does not overflow. *)
Theorem Robin_T_empty_pmp (m : Model F) (const : Constants F) :
  (rho const * Cp const =? #0) = false ->
  (#2 * (k const / (rho const * Cp const)) * H m =? #0) = false ->
  (k const =? #0) = false ->
  Forall (fun zi => (fabs zi <? #1e15) = true) (z m) ->
  z m <> [] -> pmp m = [] ->
  Robin_T m const true = Raise IndexError /\
  exists T, Robin_T m const false = Ok T /\ length T = length (z m).
Proof.
  intros _ _ _ _ Hz Hp.
  destruct (Robin_pass_nonempty m const (- qgeo m / k const) Hz) as (t & T & E).
  split.
  - revert E. unfold Robin_T, Robin_pass, Robin_integrand, Robin_q2.
    destruct (getitem _ (-1)) as [l|e]; [|discriminate].
    cbn [bind]. intros E. injection E as E. rewrite E, getitem_0_cons. cbn [bind].
    rewrite Hp, getitem_nil. reflexivity.
  - exact (Robin_T_no_melt_returns m const Hz).
Qed.

Lemma Robin_T_returns (m : Model F) (const : Constants F) (melt : bool) :
  z m <> [] -> pmp m <> [] -> exists T, Robin_T m const melt = Ok T.
Proof.
  intros Hz Hp.
  destruct melt;
    [|destruct (Robin_T_no_melt_returns m const Hz) as (T & E & _); eauto].
  destruct (Robin_pass_nonempty m const (- qgeo m / k const) Hz) as (t & T1 & E1).
  destruct (pmp m) as [|p0 ps] eqn:Ep; [contradiction|].
  assert (Ep0 : getitem (pmp m) 0 = Ok p0) by (rewrite Ep; apply getitem_0_cons).
  rewrite (Robin_T_melt _ _ E1 (getitem_0_cons t T1) Ep0).
  destruct (t >? p0); [|eauto].
  destruct (Robin_pass_nonempty m const (Robin_melt_gradient m const p0) Hz)
    as (t' & T2 & E2).
  eauto.
Qed.

Definition with_qgeo (m : Model F) (q : F) : Model F :=
  {| z := z m; Ts := Ts m; H := H m; adot := adot m; qgeo := q;
     pmp := pmp m; eps_xy := eps_xy m |}.

(** X3. Once the re-solve is triggered the geothermal flux has no further
    part in the result: two fluxes that both put the first-pass base above
    the melting point give the same profile. *)
Theorem Robin_T_resolve_ignores_qgeo (m : Model F) (const : Constants F)
    (q' : F) (T1 T2 : list F) (t1 t2 p0 : F) :
  getitem (pmp m) 0 = Ok p0 ->
  Robin_T m const false = Ok T1 -> getitem T1 0 = Ok t1 -> (t1 >? p0) = true ->
  Robin_T (with_qgeo m q') const false = Ok T2 -> getitem T2 0 = Ok t2 ->
  (t2 >? p0) = true ->
  Robin_T (with_qgeo m q') const true = Robin_T m const true.
Proof.
  intros Ep E1 Et1 H1' E2 Et2 H2'.
  rewrite Robin_T_no_melt in E1, E2.
  rewrite (Robin_T_melt _ _ E1 Et1 Ep), H1'.
  rewrite (Robin_T_melt (with_qgeo m q') const E2 Et2 Ep), H2'.
  reflexivity.
Qed.

(** With the default stress arguments ([dHdx == 0], [tau_dx == 0])
    the call returns the closed form. *)
Lemma Rezvan_T_stress_free (m : Model F) (const : Constants F)
    (rate_factor : list F -> Constants F -> list F)
    (T_ratefactor dHdx tau_dx gamma : F) (gamma_plus : bool) :
  (dHdx =? #0) = true -> (tau_dx =? #0) = true ->
  Rezvan_T global_H m const rate_factor T_ratefactor dHdx tau_dx gamma gamma_plus
  = Ok (Rezvan_profile m const (Rezvan_gamma m const gamma gamma_plus) (qgeo m)).
Proof.
  intros Hd Ht. unfold Rezvan_T, Rezvan_profile, Rezvan_gamma.
  rewrite Hd, Ht. cbn [negb andb bind]. rewrite Ht. cbn [negb bind].
  now rewrite !map_map.
Qed.

(** X4. The ['average'] bulk temperature reads [pmp[0]] before anything
    else: on an empty [pmp] both shear-margin solvers raise. *)
Theorem T_bulk_average_empty_pmp (m : Model F) (const : Constants F)
    (rate_factor : list F -> Constants F -> list F) (Tb lam : F) :
  pmp m = [] ->
  Meyer_T conductivity heat_capacity global_H m const rate_factor average Tb lam
  = Raise IndexError /\
  Perol_T conductivity heat_capacity m const rate_factor average = Raise IndexError.
Proof.
  intros Hp. unfold Meyer_T, Perol_T, resolve_T_bulk. rewrite Hp, getitem_nil.
  split; reflexivity.
Qed.

(** X5. With an explicit bulk temperature Perol's solver reads [pmp[0]] only
    inside the loop: over an empty [pmp] an empty grid gives the empty
    profile, and a nonempty grid raises at its first point. *)
Theorem Perol_T_given_T_bulk_empty_pmp (m : Model F) (const : Constants F)
    (rate_factor : list F -> Constants F -> list F) (t A : F) :
  getitem (rate_factor [t] const) 0 = Ok A ->
  pmp m = [] ->
  Perol_T conductivity heat_capacity m const rate_factor (given t)
  = match z m with
    | [] => Ok []
    | _ :: _ => Raise IndexError
    end.
Proof.
  intros EA Hp. unfold Perol_T. cbn [resolve_T_bulk bind]. rewrite EA. cbn [bind].
  destruct (z m) as [|z0 zs]; [reflexivity|].
  cbn [for_each]. unfold Perol_point at 1. rewrite Hp, getitem_nil. reflexivity.
Qed.

End SolverEdges.

(** X6. With the default stress arguments ([dHdx == 0], [tau_dx == 0])
    neither the bare name [H] nor [rate_factor] nor [T_ratefactor] is
    touched: the outcome is the same whatever these three are, and it is
    neither the [NameError] of the unbound [H] nor the [IndexError] of
    [rate_factor(...)[0]]. *)
Theorem Rezvan_T_without_stress {F : Type} `{Arith F} `{Elementary F} `{GammaW F}
    (global_H global_H' : option F) (m : Model F) (const : Constants F)
    (rate_factor rate_factor' : list F -> Constants F -> list F)
    (T_ratefactor T_ratefactor' dHdx tau_dx gamma : F) (gamma_plus : bool) :
  (dHdx =? #0)%num = true -> (tau_dx =? #0)%num = true ->
  Rezvan_T global_H m const rate_factor T_ratefactor dHdx tau_dx gamma gamma_plus
  = Rezvan_T global_H' m const rate_factor' T_ratefactor' dHdx tau_dx gamma gamma_plus /\
  Rezvan_T global_H m const rate_factor T_ratefactor dHdx tau_dx gamma gamma_plus
  <> Raise NameError /\
  Rezvan_T global_H m const rate_factor T_ratefactor dHdx tau_dx gamma gamma_plus
  <> Raise IndexError.
Proof.
  intros Hd Ht. rewrite 2!Rezvan_T_stress_free by assumption.
  split; [reflexivity|]. split; discriminate.
Qed.

(** X23. An explicit driving stress takes precedence over the surface
    slope: with [tau_dx != 0] neither [dHdx] nor the bare name [H] is
    read, so the result is the same for every slope and every global. *)
Theorem Rezvan_T_tau_dx_overrides_dHdx {F : Type} `{Arith F} `{Elementary F} `{GammaW F}
    (global_H global_H' : option F) (m : Model F) (const : Constants F)
    (rate_factor : list F -> Constants F -> list F)
    (T_ratefactor dHdx dHdx' tau_dx gamma : F) (gamma_plus : bool) :
  (tau_dx =? #0)%num = false ->
  Rezvan_T global_H m const rate_factor T_ratefactor dHdx tau_dx gamma gamma_plus
  = Rezvan_T global_H' m const rate_factor T_ratefactor dHdx' tau_dx gamma gamma_plus.
Proof.
  intros Ht. unfold Rezvan_T. rewrite Ht, !andb_false_r. reflexivity.
Qed.

(** * Profiles in exact arithmetic *)

Module IdealProfiles.

Import Ideal IdealFacts.
Local Open Scope R_scope.

Section AnyServices.

Context {eq : ErfQuad R} {gw : GammaW R}.

Lemma Robin_pass_surface (m : Model R) (const : Constants R) (G : R) (T : list R) :
  Robin_pass m const G = Ok T -> getitem T (-1) = Ok (Ts m).
Proof.
  unfold Robin_pass. cbv zeta. intros E.
  destruct (getitem _ (-1)) as [l|e] eqn:El; [|discriminate E].
  cbn [bind] in E. injection E as <-.
  rewrite getitem_map. cbn [fmul lit real_arith] in El |- *. rewrite El.
  cbn [bind fadd fsub real_arith]. f_equal. ring.
Qed.

(** X7. In exact arithmetic the shift of lines 53-54 (and 59-60) pins the
    surface-most grid point to the surface temperature: whatever
    [Robin_T] returns ends in [Ts], whatever the quadrature.  The
    constants and the thickness are positive, and where melting is
    allowed the accumulation rate and the error function of line 57 are
    positive too, so that no divisor of lines 47-57 is zero. *)
Theorem Robin_T_surface_value (m : Model R) (const : Constants R) (melt : bool)
    (T : list R) :
  0 < k const -> 0 < rho const -> 0 < Cp const -> 0 < H m ->
  melt = false \/
  (0 < adot m /\ 0 < erf (adot m * H m / (2 * (k const / (rho const * Cp const))))) ->
  Robin_T m const melt = Ok T -> getitem T (-1) = Ok (Ts m).
Proof.
  intros _ _ _ _ _ E. destruct (Robin_T_is_pass _ _ _ E) as (G & EG).
  exact (Robin_pass_surface _ _ _ EG).
Qed.

(** X8. In exact arithmetic the two incomplete-gamma terms cancel at
    [z = H]: the Rezvan profile equals [Ts] at every grid point [z = H],
    whatever the flux and the special functions.  The constants, the
    thickness and the accumulation rate are positive and the exponent in
    use is above -1, so that every power of lines 124-131 has a positive
    base and no divisor is zero. *)
Theorem Rezvan_T_surface_value (global_H : option R)
    (m : Model R) (const : Constants R)
    (rate_factor : list R -> Constants R -> list R)
    (T_ratefactor dHdx tau_dx gamma : R) (gamma_plus : bool) (T : list R) (i : nat) :
  0 < k const -> 0 < rho const -> 0 < Cp const -> 0 < H m -> 0 < adot m ->
  -1 < Rezvan_gamma m const gamma gamma_plus ->
  Rezvan_T global_H m const rate_factor T_ratefactor dHdx tau_dx gamma gamma_plus = Ok T ->
  nth_error (z m) i = Some (H m) ->
  nth_error T i = Some (Ts m).
Proof.
  intros _ _ _ _ _ _ E Ez. rewrite (Rezvan_T_returns_profile _ _ _ _ _ _ _ _ _ E).
  unfold Rezvan_profile. rewrite nth_error_map, Ez. cbn [option_map]. f_equal.
  cbn [fadd fsub fmul real_arith]. ring.
Qed.


(** X24. Without geothermal flux the column is isothermal in exact
    arithmetic: every entry of Robin's first pass, and every entry of
    the Rezvan profile, is [Ts].  The constants and the thickness are
    positive; for Rezvan's the accumulation rate is positive, the exponent
    in use is above -1 and no depth is negative, so that every power of
    lines 124-131 is taken where the interpreter has a finite value. *)
Theorem zero_flux_isothermal (global_H : option R)
    (m : Model R) (const : Constants R)
    (rate_factor : list R -> Constants R -> list R)
    (T_ratefactor dHdx tau_dx gamma : R) (gamma_plus : bool) (T : list R) :
  0 < k const -> 0 < rho const -> 0 < Cp const -> 0 < H m ->
  qgeo m = 0 ->
  Robin_T m const false = Ok T \/
  (0 < adot m /\ -1 < Rezvan_gamma m const gamma gamma_plus /\
   Forall (fun zi => 0 <= zi) (z m) /\
   Rezvan_T global_H m const rate_factor T_ratefactor dHdx tau_dx gamma gamma_plus
   = Ok T) ->
  forall t, In t T -> t = Ts m.
Proof.
  intros _ _ _ _ Hq [E|(_ & _ & _ & E)] t Ht.
  - rewrite Robin_T_no_melt in E.
    pose proof (Robin_pass_surface _ _ _ E) as Es.
    destruct (Robin_pass_map _ _ _ E) as (c & ->).
    rewrite getitem_map in Es.
    destruct (getitem (z m) (-1)) as [zl|e]; [|discriminate Es].
    cbn [bind] in Es. injection Es as Es.
    apply in_map_iff in Ht as (zi & <- & _).
    rewrite Hq in *. cbn [fadd fmul fdiv fopp real_arith] in *.
    replace (- 0 / k const) with 0 in * by (unfold Rdiv; ring). lra.
  - rewrite (Rezvan_T_returns_profile _ _ _ _ _ _ _ _ _ E) in Ht.
    unfold Rezvan_profile in Ht. apply in_map_iff in Ht as (zi & <- & _).
    rewrite Hq. cbn [fadd fsub fmul fdiv real_arith]. unfold Rdiv. ring.
Qed.



End AnyServices.

Section MonotoneQuadrature.

Context {eq : ErfQuad R}.

Hypothesis quad_const : forall c a b : R, quad (fun _ => c) a b = c * (b - a).
Hypothesis quad_monotone : forall (f1 f2 : R -> R) (a b : R),
  continuity f1 -> continuity f2 -> a <= b ->
  (forall x, a <= x <= b -> f1 x <= f2 x) -> quad f1 a b <= quad f2 a b.
Hypothesis quad_additive : forall (f : R -> R) (a b : R),
  continuity f -> 0 <= a <= b -> quad f 0 b = quad f 0 a + quad f a b.

Lemma gauss_q_increment (q a b : R) :
  0 <= a <= b ->
  0 <= quad (fun t => exp (- (t * t) * q)) 0 b - quad (fun t => exp (- (t * t) * q)) 0 a.
Proof.
  intros Hab. rewrite (quad_additive (gauss_q_continuity q) Hab).
  assert (0 <= quad (fun t => exp (- (t * t) * q)) a b); [|lra].
  replace 0 with (0 * (b - a)) by ring. rewrite <- quad_const.
  apply quad_monotone; [reg | apply gauss_q_continuity | lra |].
  intros t _. left. apply exp_pos.
Qed.

Lemma gauss_q_increment_le (q a b : R) :
  0 <= q -> 0 <= a <= b ->
  quad (fun t => exp (- (t * t) * q)) 0 b - quad (fun t => exp (- (t * t) * q)) 0 a
  <= b - a.
Proof.
  intros Hq Hab. rewrite (quad_additive (gauss_q_continuity q) Hab).
  assert (quad (fun t => exp (- (t * t) * q)) a b <= b - a); [|lra].
  replace (b - a) with (1 * (b - a)) by ring. rewrite <- quad_const.
  apply quad_monotone; [apply gauss_q_continuity | reg | lra |].
  intros t _. rewrite <- exp_0.
  destruct (Req_dec (- (t * t) * q) 0) as [->|N]; [lra|].
  left. apply exp_increasing. nra.
Qed.

Lemma Robin_first_pass_at (m : Model R) (const : Constants R) (T : list R) :
  Robin_T m const false = Ok T ->
  exists c, T = map (fun zi => - qgeo m / k const
                               * quad (fun t => exp (- (t * t) * Robin_q2 m const)) 0 zi
                               + c) (z m).
Proof.
  intros E. rewrite Robin_T_no_melt in E.
  destruct (Robin_pass_map _ _ _ E) as (c & ->). exists c.
  rewrite Robin_integrand_R. apply map_ext. intros zi.
  cbn [fadd fmul fdiv fopp real_arith]. now rewrite Rlit_0.
Qed.


(** X12. With a non-negative flux and accumulation rate, the first pass
    lies between the surface temperature and the linear
    geothermal-gradient profile through the surface-most grid point. *)
Theorem Robin_T_first_pass_bounds (m : Model R) (const : Constants R)
    (T : list R) (i : nat) (zi zl ti : R) :
  0 < k const -> 0 < rho const -> 0 < Cp const -> 0 < H m ->
  0 <= qgeo m -> 0 <= adot m ->
  Robin_T m const false = Ok T ->
  getitem (z m) (-1) = Ok zl ->
  nth_error (z m) i = Some zi -> nth_error T i = Some ti ->
  0 <= zi <= zl ->
  Ts m <= ti <= Ts m + qgeo m / k const * (zl - zi).
Proof.
  intros Hk Hr Hc HH Hq Ha E El Ezi Eti Hz.
  assert (Es : getitem T (-1) = Ok (Ts m))
    by (apply (Robin_pass_surface m const (- qgeo m / k const)%num);
        rewrite <- Robin_T_no_melt; exact E).
  destruct (Robin_first_pass_at _ _ E) as (c & ->).
  assert (Hq2 : 0 <= Robin_q2 m const).
  { rewrite Robin_q2_R. apply Rmult_le_pos; [exact Ha|].
    left. apply Rinv_0_lt_compat.
    assert (0 < k const / (rho const * Cp const)) by (apply Rdiv_lt_0_compat; nra).
    nra. }
  remember (Robin_q2 m const) as q2 eqn:Eq2. clear Eq2.
  rewrite getitem_map, El in Es. cbn [bind] in Es. injection Es as Es.
  rewrite nth_error_map, Ezi in Eti. injection Eti as <-.
  pose proof (gauss_q_increment q2 Hz) as Hinc.
  pose proof (gauss_q_increment_le Hq2 Hz) as Hle.
  assert (HG : 0 <= qgeo m / k const).
  { apply Rmult_le_pos; [exact Hq|]. left. now apply Rinv_0_lt_compat. }
  replace (- qgeo m / k const) with (- (qgeo m / k const)) in * by (unfold Rdiv; ring).
  pose proof (Rmult_le_pos _ _ HG Hinc) as P.
  assert (Q : qgeo m / k const
              * (quad (fun t => exp (- (t * t) * q2)) 0 zl
                 - quad (fun t => exp (- (t * t) * q2)) 0 zi)
              <= qgeo m / k const * (zl - zi))
    by (apply Rmult_le_compat_l; assumption).
  split; lra.
Qed.

End MonotoneQuadrature.

End IdealProfiles.

Module RiemannAdditive.

Import Ideal RiemannServices.
Local Open Scope R_scope.

Lemma RInt_additive (f : R -> R) (a b : R) :
  continuity f -> 0 <= a <= b -> RInt f 0 b = RInt f 0 a + RInt f a b.
Proof.
  intros Cf [H0a Hab].
  assert (H0b : 0 <= b) by lra.
  rewrite (RInt_eq (continuity_integrable Cf H0b)),
          (RInt_eq (continuity_integrable Cf H0a)),
          (RInt_eq (continuity_integrable Cf Hab)).
  symmetry. apply RiemannInt_P26.
Qed.

End RiemannAdditive.

(** * Solution concentrations: [concentration_functions.py]

    The module's conversions between measures of concentration, the
    Stokes-Einstein diffusivity, the viscosity of aqueous ethanol, the
    freezing-point depression and the enthalpy of mixing.  Its
    collaborators outside the repository ([constantsIceDiver], [np.load]
    and scipy's [interp1d]) are parameters. *)

(** The [constantsIceDiver] container: the fields the module reads. *)
Record DiverConstants (F : Type) : Type := {
  rhow    : F;   (* density of water *)
  rhom    : F;   (* density of methanol *)
  rhoe    : F;   (* density of ethanol *)
  mmass_w : F;   (* molar mass of water *)
  mmass_e : F;   (* molar mass of ethanol *)
  Tf0     : F;   (* 0 degrees Celsius, in kelvin *)
  kBoltz  : F    (* Boltzmann constant *)
}.

(** The exceptions of this module. *)
Inductive conc_exn : Set :=
| TypeError           (* a call that leaves required parameters unbound *)
| AttributeError      (* an attribute read off a float *)
| UnboundLocalError   (* a local read before any assignment *)
| ValueError.         (* an abscissa outside an interpolation table *)

Inductive outcome (A : Type) : Type :=
| Returns (a : A)
| Throws (e : conc_exn).
Arguments Returns {A} a.
Arguments Throws {A} e.

Definition and_then {A B : Type} (c : outcome A) (k : A -> outcome B) : outcome B :=
  match c with
  | Returns a => k a
  | Throws e => Throws e
  end.

Section Concentration.

Context {F : Type} `{Arith F} `{Elementary F}.

Local Open Scope num_scope.

(** The module-level [const = constantsIceDiver()], which is every
    function's default for its parameter [const]; a call that leaves the
    parameter out passes [module_const]. *)
Variable module_const : DiverConstants F.

(** [np.load] of one of the two tables (a 2-row array: abscissae and
    ordinates; the files are taken to be present), and [interp1d(x, y)]
    applied at a point, which raises outside the table. *)
Variable np_load : string -> list F * list F.
Variable interp1d : list F -> list F -> F -> outcome F.

(** *** Dimensional conversions *)

Definition C_pbv (C rho_solute : F) : F :=
  let pbv := C / rho_solute in
  pbv.

Definition C_Molality (C rho_solute mmass_solute : F) (const : DiverConstants F) : F :=
  (* calculate the density of the solution *)
  let rhos := C + rhow const * (#1 - C / rho_solute) in
  (* calculate the molality of the solution (mole/kg) *)
  let molality := #1000 * C / (mmass_solute * (rhos - C)) in
  molality.

Definition C_MoleFrac (C rho_solute mmass_solute : F) (const : DiverConstants F) : F :=
  (* calculate the density of the solution *)
  let rhos := C + rhow const * (#1 - C / rho_solute) in
  (* calculate the mole fraction *)
  let hold := C * mmass_w const / (mmass_solute * rhos) in
  let Xe := hold / (#1 - C / rhos + hold) in
  Xe.

Definition C_pbm (C rho_solute : F) (const : DiverConstants F) : F :=
  let rhos := C + rhow const * (#1 - C / rho_solute) in
  let pbm := C / rhos in
  pbm.

Definition pbm_Molality (pbm mmass_solute : F) (const : DiverConstants F) : F :=
  let top := pbm * #1000 / mmass_solute in
  let bottom := #1 - pbm in
  let molality := top / bottom in
  molality.

Definition pbm_C (pbm rho_solute : F) (const : DiverConstants F) : F :=
  let rhos := #1 / ((#1 / rho_solute) * pbm + (#1 / rhow const) * (#1 - pbm)) in
  let C := pbm * rhos in
  C.

(** *** Diffusivity and viscosity *)

Definition molDiff (T eta_s r : F) (const : DiverConstants F) : F :=
  (* if not in K, convert *)
  let T := if T <? #200 then T + Tf0 const else T in
  (* Molecular diffusivity *)
  let D := kBoltz const * T / (#6 * r * np_pi * eta_s) in
  D.

Definition etaKhattab (Xe T : F) (const : DiverConstants F) : F :=
  (* if not in K, convert *)
  let T := if T <? #200 then T + Tf0 const else T in
  (* calculate water and ethanol viscosity (Vogel Equation) *)
  let etaw := (#1 / #1000) * np_exp (#(-3.7188) + (#578.919 / (#(-137.546) + T))) in
  let etae := (#1 / #1000) * np_exp (#(-7.37146) + (#2770.25 / (#74.6787 + T))) in
  (* Fraction water *)
  let Xw := #1 - Xe in
  (* viscosity *)
  let eta_s := np_exp (Xw * np_log etaw + Xe * np_log etae
                       + #724.652 * (Xw * Xe / T)
                       + #729.357 * (Xw * Xe * (Xw - Xe) / T)
                       + #976.050 * (Xw * Xe * (Xw - Xe) ** #2 / T)) in
  eta_s.

(** The Vogel viscosities of water and of ethanol at [T] kelvin
    (lines 111 and 112), and the temperature in kelvin as lines 108-109
    take it. *)
Definition vogel_water (T : F) : F :=
  (#1 / #1000) * np_exp (#(-3.7188) + (#578.919 / (#(-137.546) + T))).

Definition vogel_ethanol (T : F) : F :=
  (#1 / #1000) * np_exp (#(-7.37146) + (#2770.25 / (#74.6787 + T))).

Definition in_kelvin (T : F) (const : DiverConstants F) : F :=
  if T <? #200 then T + Tf0 const else T.

(** *** Freezing-point depression *)

Definition Tf_depression (C : F) (solvent : string) (const : DiverConstants F)
  : outcome F :=
  (* [PBM] and [Tfd] are bound in the two branches only; [C_pbm] is
     called without [const] *)
  let bound :=
    if (solvent =? "methanol")%string then
      Some (C_pbm C (rhom const) module_const,
            np_load "./methanol_freezingdepression_PBM.npy"%string)
    else if (solvent =? "ethanol")%string then
      Some (C_pbm C (rhoe const) module_const,
            np_load "./ethanol_freezingdepression_PBM.npy"%string)
    else None in
  match bound with
  | None => Throws UnboundLocalError
  | Some (PBM, Tfd) =>
      (* linear interpolation between points *)
      interp1d (fst Tfd) (snd Tfd) PBM
  end.

(** *** Enthalpy of mixing *)

(** A call [C_MoleFrac(a1, ..., an)] with positional arguments only:
    the parameters are [C], [rho_solute], [mmass_solute] and then
    [const], which alone has a default. *)
Definition call_C_MoleFrac (args : list F) : outcome F :=
  match args with
  | [C; rho_solute; mmass_solute] =>
      Returns (C_MoleFrac C rho_solute mmass_solute module_const)
  | [_; _; _; _] => Throws AttributeError   (* a float bound to [const] *)
  | _ => Throws TypeError                   (* parameters missing, or too many arguments *)
  end.

Definition Hmix (C : F) (solvent : string) (const : DiverConstants F)
  : outcome (F * F) :=
  (* mole fraction *)
  and_then (call_C_MoleFrac [C]) (fun Xe =>
  let Xw := #1 - Xe in
  let coefficients :=
    if (solvent =? "methanol")%string then Some (#(-5.1), #(-3.4), #0.5)
    else if (solvent =? "ethanol")%string then Some (#(-10.6), #(-1.2), #0.1)
    else None in
  match coefficients with
  | None => Throws UnboundLocalError
  | Some (c61, c11, c12) =>
      (* Enthalpy of mixing (J/mol) *)
      let H := #1000 * (c61 * Xw ** #6 * Xe + c11 * Xw * Xe + c12 * Xw * Xe ** #2) in
      (* Energy density (J m-3) *)
      let phi := H * C / (mmass_e const / #1000) in
      Returns (H, phi)
  end).

(** ** Properties in any arithmetic *)

(** X13. [Hmix] calls [C_MoleFrac(C)] with one argument where three are
    required: it raises [TypeError] on every input and never returns. *)
Theorem Hmix_never_returns (C : F) (solvent : string) (c : DiverConstants F) :
  Hmix C solvent c = Throws TypeError.
Proof. reflexivity. Qed.

(** X14. A solvent that is neither ['methanol'] nor ['ethanol'] leaves the
    table unbound: [Tf_depression] raises [UnboundLocalError], whatever
    the concentration, and reads no file. *)
Theorem Tf_depression_unknown_solvent (C : F) (solvent : string)
    (c : DiverConstants F) :
  solvent <> "methanol"%string -> solvent <> "ethanol"%string ->
  Tf_depression C solvent c = Throws UnboundLocalError.
Proof.
  intros Hm He. unfold Tf_depression.
  rewrite (proj2 (String.eqb_neq _ _) Hm), (proj2 (String.eqb_neq _ _) He).
  reflexivity.
Qed.

(** X15. A temperature given in degrees Celsius (below 200) and the same
    temperature given in kelvin give the same diffusivity and the same
    viscosity, as long as its kelvin value is not itself below 200. *)
Theorem celsius_or_kelvin (T Xe eta_s r : F) (c : DiverConstants F) :
  (T <? #200) = true -> (T + Tf0 c <? #200) = false ->
  molDiff T eta_s r c = molDiff (T + Tf0 c) eta_s r c /\
  etaKhattab Xe T c = etaKhattab Xe (T + Tf0 c) c.
Proof.
  intros Hc Hk. unfold molDiff, etaKhattab. rewrite Hc, Hk. split; reflexivity.
Qed.

(** X16. Of its [const] argument [Tf_depression] reads the solute
    densities only: the water density in the percent by mass is the
    module default's, so two containers with the same [rhom] and [rhoe]
    give the same result whatever their [rhow]. *)
Theorem Tf_depression_ignores_rhow (C : F) (solvent : string)
    (c c' : DiverConstants F) :
  rhom c = rhom c' -> rhoe c = rhoe c' ->
  Tf_depression C solvent c = Tf_depression C solvent c'.
Proof.
  intros Hm He. unfold Tf_depression. now rewrite Hm, He.
Qed.

End Concentration.

(** ** Conversions in exact arithmetic *)

Module IdealConcentration.

Import Ideal IdealFacts.
Local Open Scope R_scope.

Ltac real_ops :=
  cbn [fadd fsub fmul fdiv fopp lit real_arith np_exp np_log fpow real_elementary];
  unfold Q2R; cbn [Qnum Qden].

(** The density of the solution, as each conversion from [C] computes it. *)
Definition solution_density (C rho_solute : R) (c : DiverConstants R) : R :=
  C + rhow c * (1 - C / rho_solute).

Lemma solution_density_pos (C rho_solute : R) (c : DiverConstants R) :
  0 < rho_solute -> 0 < rhow c -> 0 <= C <= rho_solute ->
  0 < solution_density C rho_solute c.
Proof.
  intros Hs Hw [H0 H1]. unfold solution_density.
  assert (Hq : 0 <= 1 - C / rho_solute).
  { assert (C / rho_solute <= 1); [|lra].
    apply Rmult_le_reg_r with rho_solute; [exact Hs|].
    unfold Rdiv. rewrite Rmult_assoc, Rinv_l by lra. lra. }
  destruct (Req_dec C 0) as [->|N].
  - unfold Rdiv. rewrite Rmult_0_l, Rminus_0_r. lra.
  - assert (0 <= rhow c * (1 - C / rho_solute)) by (apply Rmult_le_pos; lra). lra.
Qed.

(** X17. Concentration to percent by mass and back: [pbm_C] undoes
    [C_pbm] for every concentration between 0 and the solute's density. *)
Theorem pbm_C_C_pbm (C rho_solute : R) (c : DiverConstants R) :
  0 < rho_solute -> 0 < rhow c -> 0 <= C <= rho_solute ->
  pbm_C (C_pbm C rho_solute c) rho_solute c = C.
Proof.
  intros Hs Hw HC.
  unfold pbm_C, C_pbm. real_ops. field. repeat split; try lra.
  - assert (0 <= rhow c * (rho_solute - C)) by (apply Rmult_le_pos; lra).
    destruct (Req_dec C 0) as [->|N]; [nra|].
    assert (0 < C * rho_solute) by (apply Rmult_lt_0_compat; lra). lra.
  - assert (0 < rhow c * rho_solute) by (apply Rmult_lt_0_compat; lra). lra.
Qed.

(** X18. Percent by mass to concentration and back: [C_pbm] undoes
    [pbm_C] for every mass fraction between 0 and 1. *)
Theorem C_pbm_pbm_C (pbm rho_solute : R) (c : DiverConstants R) :
  0 < rho_solute -> 0 < rhow c -> 0 <= pbm <= 1 ->
  C_pbm (pbm_C pbm rho_solute c) rho_solute c = pbm.
Proof.
  intros Hs Hw Hp.
  assert (HD : 0 < pbm * rhow c + (1 - pbm) * rho_solute).
  { destruct (Req_dec pbm 0) as [->|N]; [lra|].
    assert (0 < pbm * rhow c) by (apply Rmult_lt_0_compat; lra).
    assert (0 <= (1 - pbm) * rho_solute) by (apply Rmult_le_pos; lra). lra. }
  unfold pbm_C, C_pbm. real_ops. field. repeat split; try lra.
  assert (0 < rhow c * rho_solute) by (apply Rmult_lt_0_compat; lra).
  match goal with |- ?e <> 0 => replace e with (rhow c * rho_solute) by ring end.
  lra.
Qed.

(** X19. Percent by mass is a fraction: every concentration between 0
    and the solute's density is sent into [[0,1]], with no solute at 0
    and pure solute at 1. *)
Theorem C_pbm_range (C rho_solute : R) (c : DiverConstants R) :
  0 < rho_solute -> 0 < rhow c -> 0 <= C <= rho_solute ->
  0 <= C_pbm C rho_solute c <= 1 /\
  C_pbm 0 rho_solute c = 0 /\
  C_pbm rho_solute rho_solute c = 1.
Proof.
  intros Hs Hw HC.
  pose proof (solution_density_pos c Hs Hw HC) as Hd. unfold solution_density in Hd.
  assert (Hq : 0 <= rhow c * (1 - C / rho_solute)).
  { apply Rmult_le_pos; [lra|].
    assert (C / rho_solute <= 1); [|lra].
    apply Rmult_le_reg_r with rho_solute; [exact Hs|].
    unfold Rdiv. rewrite Rmult_assoc, Rinv_l by lra. lra. }
  unfold C_pbm. real_ops. replace (1 * / 1) with 1 by field.
  split; [split|split].
  - apply Rmult_le_pos; [lra|]. left. apply Rinv_0_lt_compat. exact Hd.
  - apply Rmult_le_reg_r with (C + rhow c * (1 - C / rho_solute)); [exact Hd|].
    unfold Rdiv at 1. rewrite Rmult_assoc, Rinv_l by lra. lra.
  - unfold Rdiv. ring.
  - field. repeat split; lra.
Qed.

Lemma solution_density_gt (C rho_solute : R) (c : DiverConstants R) :
  0 < rho_solute -> 0 < rhow c -> 0 <= C < rho_solute ->
  C < solution_density C rho_solute c.
Proof.
  intros Hs Hw [H0 H1]. unfold solution_density.
  assert (0 < 1 - C / rho_solute).
  { assert (C / rho_solute < 1); [|lra].
    apply Rmult_lt_reg_r with rho_solute; [exact Hs|].
    unfold Rdiv. rewrite Rmult_assoc, Rinv_l by lra. lra. }
  assert (0 < rhow c * (1 - C / rho_solute)) by (apply Rmult_lt_0_compat; lra). lra.
Qed.

Lemma solvent_share_pos (C rho_solute : R) (c : DiverConstants R) :
  0 < rho_solute -> 0 < rhow c -> 0 <= C < rho_solute ->
  0 <= C * rho_solute /\ 0 < rhow c * (rho_solute - C).
Proof.
  intros Hs Hw [H0 H1]. split.
  - apply Rmult_le_pos; lra.
  - apply Rmult_lt_0_compat; lra.
Qed.

(** X20. The two routes to molality agree: concentration to percent by
    mass to molality is [C_Molality], for every concentration below the
    solute's density. *)
Theorem pbm_Molality_C_pbm (C rho_solute mmass_solute : R) (c : DiverConstants R) :
  0 < rho_solute -> 0 < rhow c -> 0 < mmass_solute -> 0 <= C < rho_solute ->
  pbm_Molality (C_pbm C rho_solute c) mmass_solute c
  = C_Molality C rho_solute mmass_solute c.
Proof.
  intros Hs Hw Hm HC.
  destruct (solvent_share_pos c Hs Hw HC) as [Ha Hb].
  unfold pbm_Molality, C_pbm, C_Molality. real_ops.
  field. repeat split; lra.
Qed.

(** X21. The mole fraction is the molality's: with [b] the moles of
    solute per mole of water, [C_MoleFrac] is [b/(1+b)], and so lies in
    [[0,1)]. *)
Theorem C_MoleFrac_of_Molality (C rho_solute mmass_solute : R) (c : DiverConstants R) :
  0 < rho_solute -> 0 < rhow c -> 0 < mmass_solute -> 0 < mmass_w c ->
  0 <= C < rho_solute ->
  let b := C_Molality C rho_solute mmass_solute c * mmass_w c / 1000 in
  C_MoleFrac C rho_solute mmass_solute c = b / (1 + b) /\
  0 <= C_MoleFrac C rho_solute mmass_solute c < 1.
Proof.
  intros Hs Hw Hm Hmw HC b.
  destruct (solvent_share_pos c Hs Hw HC) as [Ha Hb].
  assert (Eb : b = C * rho_solute * mmass_w c
                   / (mmass_solute * (rhow c * (rho_solute - C)))).
  { unfold b, C_Molality. real_ops. field. repeat split; lra. }
  assert (Hm' : 0 < mmass_solute * (rhow c * (rho_solute - C)))
    by (apply Rmult_lt_0_compat; lra).
  assert (Hn : 0 <= C * rho_solute * mmass_w c) by (apply Rmult_le_pos; lra).
  assert (Hb0 : 0 <= b).
  { rewrite Eb. apply Rmult_le_pos; [exact Hn|]. left. apply Rinv_0_lt_compat. exact Hm'. }
  assert (E : C_MoleFrac C rho_solute mmass_solute c = b / (1 + b)).
  { rewrite Eb. unfold C_MoleFrac. real_ops. field. repeat split; lra. }
  split; [exact E|]. rewrite E. split.
  - apply Rmult_le_pos; [exact Hb0|]. left. apply Rinv_0_lt_compat. lra.
  - apply Rmult_lt_reg_r with (1 + b); [lra|].
    unfold Rdiv. rewrite Rmult_assoc, Rinv_l by lra. lra.
Qed.

(** X22. At the two ends of the mixture the Jouyban-Acree terms drop out:
    pure water ([Xe = 0]) has the Vogel viscosity of water and pure
    ethanol ([Xe = 1]) that of ethanol, at every temperature. *)
Theorem etaKhattab_pure_ends (T : R) (c : DiverConstants R) :
  etaKhattab 0 T c = vogel_water (in_kelvin T c) /\
  etaKhattab 1 T c = vogel_ethanol (in_kelvin T c).
Proof.
  unfold etaKhattab. fold (in_kelvin T c).
  fold (vogel_water (in_kelvin T c)). fold (vogel_ethanol (in_kelvin T c)).
  set (etaw := vogel_water (in_kelvin T c)).
  set (etae := vogel_ethanol (in_kelvin T c)).
  assert (Hw : 0 < etaw).
  { unfold etaw, vogel_water. real_ops. apply Rmult_lt_0_compat; [lra | apply exp_pos]. }
  assert (He : 0 < etae).
  { unfold etae, vogel_ethanol. real_ops. apply Rmult_lt_0_compat; [lra | apply exp_pos]. }
  split.
  - rewrite <- (exp_ln etaw Hw) at 2.
    cbn [fadd fsub fmul fdiv fopp np_exp np_log fpow real_arith real_elementary].
    f_equal. rewrite Rlit_1, Rlit_2, Rpow_2. unfold Rdiv. ring.
  - rewrite <- (exp_ln etae He) at 2.
    cbn [fadd fsub fmul fdiv fopp np_exp np_log fpow real_arith real_elementary].
    f_equal. rewrite Rlit_1, Rlit_2, Rpow_2. unfold Rdiv. ring.
Qed.

End IdealConcentration.

(** * Examples *)

(** ** Edge cases in binary64 *)

Module Binary64EdgeExamples.

Import Binary64 Binary64Facts Binary64Examples.
Local Open Scope float_scope.
#[local] Set Warnings "-inexact-float".

#[local] Existing Instance ref_elementary.
#[local] Existing Instance ref_erfquad.
#[local] Existing Instance ref_gammaw.

(** The cold site without a depth grid, and without a melting-point
    profile. *)
Definition gridless_site : Model float :=
  {| z := []; Ts := -30; H := 1000; adot := 0.1 / 31556736;
     qgeo := 0.05; pmp := melting;
     eps_xy := 1e-9 |}.

Definition unpinned_site : Model float :=
  {| z := grid; Ts := -30; H := 1000; adot := 0.1 / 31556736;
     qgeo := 0.05; pmp := [];
     eps_xy := 1e-9 |}.

Lemma Robin_T_empty_grid_witness :
  Robin_T gridless_site ice true = Raise IndexError.
Proof. apply Robin_T_empty_grid. reflexivity. Defined.

Lemma Robin_T_empty_pmp_witness :
  Robin_T unpinned_site ice true = Raise IndexError /\
  exists T, Robin_T unpinned_site ice false = Ok T /\
            length T = length (z unpinned_site).
Proof.
  apply Robin_T_empty_pmp;
    [reflexivity | reflexivity | reflexivity | repeat constructor
    | discriminate | reflexivity].
Defined.

(** Over 0.12 and over 0.2 W/m^2 the first pass puts the base of the
    warm site above melting. *)
Lemma Robin_T_resolve_ignores_qgeo_witness :
  Robin_T (with_qgeo warm_site 0.2) ice true = Robin_T warm_site ice true.
Proof.
  eapply (@Robin_T_resolve_ignores_qgeo _ _ _ _ warm_site ice 0.2);
    vm_compute; reflexivity.
Defined.

Lemma Rezvan_T_without_stress_witness :
  Rezvan_T None cold_site ice rate_factor_ice (-10) 0 0 1.397 true
  = Rezvan_T (Some 2000) cold_site ice (fun _ _ => []) 0 0 0 1.397 true /\
  Rezvan_T None cold_site ice rate_factor_ice (-10) 0 0 1.397 true <> Raise NameError /\
  Rezvan_T None cold_site ice rate_factor_ice (-10) 0 0 1.397 true <> Raise IndexError.
Proof. apply Rezvan_T_without_stress; reflexivity. Defined.

Lemma Rezvan_T_tau_dx_overrides_dHdx_witness :
  Rezvan_T None cold_site ice rate_factor_ice (-10) 0.01 1e5 1.397 true
  = Rezvan_T (Some 1000) cold_site ice rate_factor_ice (-10) 0 1e5 1.397 true.
Proof. apply Rezvan_T_tau_dx_overrides_dHdx. reflexivity. Defined.

Lemma T_bulk_average_empty_pmp_witness :
  Meyer_T conductivity_ice heat_capacity_ice None unpinned_site ice rate_factor_ice
    average 0 0 = Raise IndexError /\
  Perol_T conductivity_ice heat_capacity_ice unpinned_site ice rate_factor_ice average
  = Raise IndexError.
Proof. apply T_bulk_average_empty_pmp. reflexivity. Defined.

Lemma Perol_T_given_T_bulk_empty_pmp_witness :
  Perol_T conductivity_ice heat_capacity_ice unpinned_site ice rate_factor_ice
    (given (-10)) = Raise IndexError.
Proof.
  apply (@Perol_T_given_T_bulk_empty_pmp _ _ _ _ conductivity_ice heat_capacity_ice
           unpinned_site ice rate_factor_ice (-10) 3.5e-25); reflexivity.
Defined.

(** Constants of the melt probe's solutions (SI units, molar masses in
    g/mol), and a two-point table with its linear interpolation standing
    in for the handbook files. *)
Definition diver : DiverConstants float :=
  {| rhow := 1000; rhom := 810; rhoe := 800;
     mmass_w := 18.015; mmass_e := 46.07;
     Tf0 := 273.15; kBoltz := 1.380649e-23 |}.

Definition two_point_table (file : string) : list float * list float :=
  ([0; 0.5], [0; -50]).

Definition linear_interp (xs ys : list float) (x : float) : outcome float :=
  match xs, ys with
  | [x0; x1], [y0; y1] =>
      if (x0 <=? x) && (x <=? x1)
      then Returns (y0 + (x - x0) * (y1 - y0) / (x1 - x0))
      else Throws ValueError
  | _, _ => Throws ValueError
  end.

Lemma Tf_depression_unknown_solvent_witness :
  Tf_depression diver two_point_table linear_interp 100 "propanol" diver
  = Throws UnboundLocalError.
Proof. apply Tf_depression_unknown_solvent; discriminate. Defined.

(** A container with another water density. *)
Definition brine_diver : DiverConstants float :=
  {| rhow := 1025; rhom := 810; rhoe := 800;
     mmass_w := 18.015; mmass_e := 46.07;
     Tf0 := 273.15; kBoltz := 1.380649e-23 |}.

Lemma Tf_depression_ignores_rhow_witness :
  Tf_depression diver two_point_table linear_interp 100 "ethanol" diver
  = Tf_depression diver two_point_table linear_interp 100 "ethanol" brine_diver.
Proof. apply Tf_depression_ignores_rhow; reflexivity. Defined.

Lemma celsius_or_kelvin_witness :
  molDiff (-10) 0.004 0.22e-9 diver = molDiff (-10 + Tf0 diver) 0.004 0.22e-9 diver /\
  etaKhattab 0.3 (-10) diver = etaKhattab 0.3 (-10 + Tf0 diver) diver.
Proof.
  apply (@celsius_or_kelvin _ float_arith ref_elementary (-10) 0.3 0.004 0.22e-9 diver);
    reflexivity.
Defined.

End Binary64EdgeExamples.

(** ** Exact arithmetic *)

(** The special functions of [GammaW] over the reals: the upper
    incomplete gamma function as the limit of its integrals over
    [[x, x+N]], and the principal branch of Lambert's W as the solution of
    [w * exp w = x] with [w >= -1].  Where the limit or the solution does
    not exist the value is unspecified. *)
Module IdealSpecial.

Import Ideal.
Local Open Scope R_scope.

Definition lim_seq (u : nat -> R) : R :=
  epsilon (inhabits 0) (fun l => Un_cv u l).

Definition Gamma_upper (a x : R) : R :=
  lim_seq (fun N => RInt (fun t => Rpower t (a - 1) * exp (- t)) x (x + INR N)).

Definition Gamma_R (a : R) : R := Gamma_upper a 0.

Definition gammaincc_R (a x : R) : R := Gamma_upper a x / Gamma_R a.

Definition lambertw_R (x : R) : R :=
  epsilon (inhabits 0) (fun w => -1 <= w /\ w * exp w = x).

Definition improper_gammaw : GammaW R :=
  {| sp_gamma := Gamma_R; gammaincc := gammaincc_R; lambertw_re := lambertw_R |}.

End IdealSpecial.

Module RealProfileExamples.

Import Ideal IdealFacts RiemannServices RiemannAdditive RealExamples.
Import IdealSpecial IdealProfiles IdealConcentration.
Local Open Scope R_scope.

#[local] Existing Instance riemann_erfquad.
#[local] Existing Instance improper_gammaw.

Lemma Reqb_0_lit : (0 =? #0)%num = true.
Proof.
  cbn [feqb real_arith]. unfold Reqb.
  destruct (Req_dec_T 0 (lit 0)) as [_|N]; [reflexivity|].
  exfalso. apply N. now rewrite Rlit_0.
Qed.



Lemma Robin_T_surface_value_witness :
  exists T, Robin_T dry_siteR iceR true = Ok T /\ getitem T (-1) = Ok (Ts dry_siteR).
Proof.
  destruct (@Robin_T_returns R _ _ _ dry_siteR iceR true) as (T & E);
    [discriminate | discriminate |].
  exists T. split; [exact E|].
  apply (Robin_T_surface_value dry_siteR iceR (melt := true) (T := T)).
  - cbn. lra.
  - cbn. lra.
  - cbn. lra.
  - cbn. lra.
  - right. split; [cbn; lra|].
    change (0 < erf_R (Robin_X dry_siteR iceR)). rewrite dry_site_X.
    apply erf_R_pos. lra.
  - exact E.
Defined.

Lemma Rezvan_T_surface_value_witness :
  exists T,
    Rezvan_T None dry_siteR iceR rate_factor_iceR (-10) 0 0 (1397 / 1000) false = Ok T /\
    nth_error T 2 = Some (Ts dry_siteR).
Proof.
  eexists. split.
  - apply Rezvan_T_stress_free; exact Reqb_0_lit.
  - apply (@Rezvan_T_surface_value _ None dry_siteR iceR rate_factor_iceR
             (-10) 0 0 (1397 / 1000) false).
    + cbn. lra.
    + cbn. lra.
    + cbn. lra.
    + cbn. lra.
    + cbn. assert (0 < 21 / 10 / (917 * 2097)) by (apply Rdiv_lt_0_compat; lra). lra.
    + cbn. lra.
    + apply Rezvan_T_stress_free; exact Reqb_0_lit.
    + reflexivity.
Defined.




(** The dry site over no geothermal flux. *)
Definition fluxless_siteR : Model R :=
  {| z := [0; 500; 1000]; Ts := -30; H := 1000;
     adot := 1 / 16 * (21 / 10 / (917 * 2097)) / 1000;
     qgeo := 0; pmp := [-7 / 10; -35 / 100; 0]; eps_xy := 1 / 1000000000 |}.

Lemma zero_flux_isothermal_witness :
  exists T, Robin_T fluxless_siteR iceR false = Ok T /\ forall t, In t T -> t = -30.
Proof.
  destruct (@Robin_T_no_melt_returns R _ _ _ fluxless_siteR iceR) as (T & E & _);
    [discriminate|].
  exists T. split; [exact E|].
  apply (zero_flux_isothermal None fluxless_siteR iceR rate_factor_iceR 0 0 0 0 false
           (T := T));
    [cbn; lra | cbn; lra | cbn; lra | cbn; lra | reflexivity | left; exact E].
Defined.


Lemma Robin_T_first_pass_bounds_witness :
  exists T t1,
    Robin_T dry_siteR iceR false = Ok T /\ nth_error T 1 = Some t1 /\
    -30 <= t1 <= -30 + 12 / 100 / (21 / 10) * (1000 - 500).
Proof.
  destruct (@Robin_T_no_melt_returns R _ _ _ dry_siteR iceR) as (T & E & Hl);
    [discriminate|].
  destruct T as [|t0 [|t1 [|t2 [|t3 T]]]]; try discriminate Hl.
  exists [t0; t1; t2], t1. split; [exact E|]. split; [reflexivity|].
  apply (Robin_T_first_pass_bounds (eq := riemann_erfquad) RInt_const RInt_monotone
           RInt_additive dry_siteR iceR 1%nat (T := [t0; t1; t2])
           (zi := 500) (zl := 1000)).
  - cbn. lra.
  - cbn. lra.
  - cbn. lra.
  - cbn. lra.
  - cbn. lra.
  - cbn. lra.
  - exact E.
  - reflexivity.
  - reflexivity.
  - reflexivity.
  - lra.
Defined.

(** Constants of the melt probe's solutions (SI units, molar masses in
    g/mol). *)
Definition diverR : DiverConstants R :=
  {| rhow := 1000; rhom := 810; rhoe := 800;
     mmass_w := 18015 / 1000; mmass_e := 4607 / 100;
     Tf0 := 27315 / 100; kBoltz := 1380649 / 10 ^ 29 |}.

Lemma C_pbm_range_witness :
  0 <= C_pbm 200 800 diverR <= 1 /\
  C_pbm 0 800 diverR = 0 /\
  C_pbm 800 800 diverR = 1.
Proof. apply C_pbm_range; cbn; lra. Defined.

Lemma pbm_C_C_pbm_witness : pbm_C (C_pbm 200 800 diverR) 800 diverR = 200.
Proof. apply pbm_C_C_pbm; cbn; lra. Defined.

Lemma C_pbm_pbm_C_witness : C_pbm (pbm_C (1 / 4) 800 diverR) 800 diverR = 1 / 4.
Proof. apply C_pbm_pbm_C; cbn; lra. Defined.

Lemma pbm_Molality_C_pbm_witness :
  pbm_Molality (C_pbm 200 800 diverR) (4607 / 100) diverR
  = C_Molality 200 800 (4607 / 100) diverR.
Proof. apply pbm_Molality_C_pbm; cbn; lra. Defined.

Lemma C_MoleFrac_of_Molality_witness :
  let b := C_Molality 200 800 (4607 / 100) diverR * mmass_w diverR / 1000 in
  C_MoleFrac 200 800 (4607 / 100) diverR = b / (1 + b) /\
  0 <= C_MoleFrac 200 800 (4607 / 100) diverR < 1.
Proof. apply C_MoleFrac_of_Molality; cbn; lra. Defined.

End RealProfileExamples.
